(** * partial_trueskill: a shallow embedding of [domain.py]

    The module computes TrueSkill-style rating updates for one pairwise
    outcome.  This development embeds its data model and operations and
    proves properties of them.

    Conventions of the embedding.
    - A Python [float] is a real number ([R]): rounding, overflow, NaN and
      infinities are outside the model.  Float division raises
      [ZeroDivisionError] on a zero divisor and [math.sqrt] raises
      [ValueError] on a negative argument, as in CPython.
    - Rating objects are mutable and are compared, stored in events and
      updated through references, so they live in a store ([gmap] from
      references to objects).  An [Event] holds references to its winner and
      its loser, not copies of them.
    - Attribute reads that dispatch on the class of a rating recurse through
      composite ratings; the recursion depth is bounded by a fuel argument,
      and running out of it is Python's [RecursionError].  A reference
      that the store does not bind cannot arise in Python; reading one is
      the error [DanglingReference]. *)

From Stdlib Require Import Reals Lra Lia ZArith String List.
From stdpp Require Import base option gmap.
Import ListNotations.

Local Open Scope R_scope.

(** ** Exceptions and results *)

Inductive exn : Set :=
| ZeroDivisionError
| ValueError
| RecursionError
| DanglingReference.

Inductive result (A : Type) : Type :=
| Ok (a : A)
| Raise (e : exn).

Arguments Ok {A} a.
Arguments Raise {A} e.

#[global] Instance result_ret : MRet result := fun _ a => Ok a.

#[global] Instance result_bind : MBind result := fun _ _ k m =>
  match m with
  | Ok a => k a
  | Raise e => Raise e
  end.

Fixpoint traverse {A B : Type} (f : A -> result B) (l : list A) : result (list B) :=
  match l with
  | [] => Ok []
  | x :: l' => y ← f x; ys ← traverse f l'; Ok (y :: ys)
  end.

(** ** Float primitives *)

(** [x / y] on floats. *)
Definition float_div (x y : R) : result R :=
  if Req_dec_T y 0 then Raise ZeroDivisionError else Ok (x / y).

(** [math.sqrt]. *)
Definition math_sqrt (x : R) : result R :=
  if Rlt_dec x 0 then Raise ValueError else Ok (sqrt x).

(** [==] on floats. *)
Definition float_eq (x y : R) : bool :=
  if Req_dec_T x y then true else false.

(** The builtin [sum] over a list of floats, and over a list of ints. *)
Definition sum (l : list R) : R := fold_left Rplus l 0.
Definition sumZ (l : list Z) : Z := fold_left Z.add l 0%Z.

(** ** [statistics.NormalDist()]: the standard normal distribution

    [normal_dist] is [NormalDist()] with [mu = 0] and [sigma = 1]; its
    [pdf] is [exp(x*x / (-2.0 * variance)) / sqrt(tau * variance)] and its
    [cdf] is [0.5 * (1.0 + erf(x / (sigma * sqrt 2)))]. *)

Definition gauss (t : R) : R := exp (- (t * t)).

Lemma gauss_continuity : continuity gauss.
Proof.
  unfold gauss.
  apply (continuity_comp (fun t => - (t * t)) exp).
  - apply continuity_opp. apply continuity_mult; apply derivable_continuous, derivable_id.
  - apply derivable_continuous, derivable_exp.
Qed.

Lemma gauss_integrable (a b : R) : Riemann_integrable gauss a b.
Proof.
  destruct (Rle_dec a b) as [Hab | Hab].
  - apply continuity_implies_RiemannInt; [exact Hab | intros; apply gauss_continuity].
  - apply RiemannInt_P1, continuity_implies_RiemannInt; [lra | intros; apply gauss_continuity].
Qed.

Definition erf (x : R) : R := 2 / sqrt PI * RiemannInt (gauss_integrable 0 x).

Definition pdf (x : R) : R := exp (x * x / (-2 * (1 * 1))) / sqrt (2 * PI * (1 * 1)).
Definition cdf (x : R) : R := 0.5 * (1 + erf (x / (1 * sqrt 2))).

(** ** Parameters *)

Record Parameters : Set := {
  static_performance_spread : R;
  constant_additional_variance : R
}.

Definition beta (p : Parameters) : R := static_performance_spread p.
Definition tau (p : Parameters) : R := constant_additional_variance p.

(** ** Ratings and the object store *)

(** References to rating objects. *)
Abbreviation ref := positive.

Inductive Rating : Set :=
| SkillBasedRating (mean variance : R)
| ConstantRating (is_set : bool) (variance mean : R)
| RateableTotality (name : string) (ratings : list ref).

Abbreviation heap := (gmap positive Rating).

(** [rating.mean]: a stored field, or the property of [RateableTotality]. *)
Fixpoint mean (n : nat) (h : heap) (r : ref) : result R :=
  match n with
  | O => Raise RecursionError
  | S n' =>
      match h !! r with
      | None => Raise DanglingReference
      | Some (SkillBasedRating m _) => Ok m
      | Some (ConstantRating _ _ m) => Ok m
      | Some (RateableTotality _ rs) => ms ← traverse (mean n' h) rs; Ok (sum ms)
      end
  end.

(** [rating.variance]. *)
Fixpoint variance (n : nat) (h : heap) (r : ref) : result R :=
  match n with
  | O => Raise RecursionError
  | S n' =>
      match h !! r with
      | None => Raise DanglingReference
      | Some (SkillBasedRating _ v) => Ok v
      | Some (ConstantRating _ v _) => Ok v
      | Some (RateableTotality _ rs) => vs ← traverse (variance n' h) rs; Ok (sum vs)
      end
  end.

(** [rating.beta_count]: the class attribute [1] or [0], or the property. *)
Fixpoint beta_count (n : nat) (h : heap) (r : ref) : result Z :=
  match n with
  | O => Raise RecursionError
  | S n' =>
      match h !! r with
      | None => Raise DanglingReference
      | Some (SkillBasedRating _ _) => Ok 1%Z
      | Some (ConstantRating _ _ _) => Ok 0%Z
      | Some (RateableTotality _ rs) => bs ← traverse (beta_count n' h) rs; Ok (sumZ bs)
      end
  end.

(** [rating.sigma_variance_for_std_dev()]: [Rating]'s default, overridden by
    [RateableTotality]. *)
Fixpoint sigma_variance_for_std_dev (n : nat) (h : heap) (r : ref) : result R :=
  match n with
  | O => Raise RecursionError
  | S n' =>
      match h !! r with
      | None => Raise DanglingReference
      | Some (SkillBasedRating _ v) => Ok (v ^ 2)
      | Some (ConstantRating _ v _) => Ok (v ^ 2)
      | Some (RateableTotality _ rs) =>
          ss ← traverse (sigma_variance_for_std_dev n' h) rs; Ok (sum ss)
      end
  end.

(** ** Events *)

Record Event : Set := {
  weight : R;
  winner : ref;
  loser : ref;
  parameters : Parameters;
  name : string;
  delta : R;
  std_dev_of_performances : R;
  z_factor : R;
  mean_scale : R;
  variance_scale : R
}.

(** [Event._delta]. *)
Definition _delta (n : nat) (h : heap) (winner loser : ref) : result R :=
  mw ← mean n h winner;
  ml ← mean n h loser;
  Ok (mw - ml).

(** [Event._std_dev_of_performances]. *)
Definition _std_dev_of_performances
    (n : nat) (h : heap) (winner loser : ref) (p : Parameters) : result R :=
  bw ← beta_count n h winner;
  bl ← beta_count n h loser;
  sw ← sigma_variance_for_std_dev n h winner;
  sl ← sigma_variance_for_std_dev n h loser;
  math_sqrt ((IZR (bw + bl) * static_performance_spread p ^ 2) + sw + sl).

(** [Event._z_factor]. *)
Definition _z_factor (delta c : R) : result R := float_div delta c.

(** [Event._mean_scale]. *)
Definition _mean_scale (z : R) : result R := float_div (pdf z) (cdf z).

(** [Event._variance_scale]. *)
Definition _variance_scale (v z : R) : R := v * (v + z).

(** [Event(weight, winner, loser, parameters, name)]: the generated
    [__init__] stores the five arguments and calls [__post_init__], which
    computes the derived fields in this order.  The store is only read. *)
Definition new_Event (n : nat) (h : heap)
    (weight : R) (winner loser : ref) (p : Parameters) (name : string)
  : result Event :=
  d ← _delta n h winner loser;
  c ← _std_dev_of_performances n h winner loser p;
  z ← _z_factor d c;
  v ← _mean_scale z;
  Ok {| weight := weight; winner := winner; loser := loser;
        parameters := p; name := name;
        delta := d; std_dev_of_performances := c; z_factor := z;
        mean_scale := v; variance_scale := _variance_scale v z |}.

(** ** Equality of ratings

    The three rating classes are dataclasses, so [a == b] is the generated
    [__eq__]: the same object is equal to itself; objects of different
    classes are unequal; objects of one class are compared field by field
    ([mean], [variance] for [SkillBasedRating]; [is_set], [variance], [mean]
    for [ConstantRating]; [name], [ratings] for [RateableTotality]).  Lists
    compare their lengths first and then their elements in order. *)

Fixpoint list_eq (f : ref -> ref -> result bool) (l l' : list ref) : result bool :=
  match l, l' with
  | [], [] => Ok true
  | x :: t, y :: t' => b ← f x y; if (b : bool) then list_eq f t t' else Ok false
  | _, _ => Ok false
  end.

Fixpoint rating_eq (n : nat) (h : heap) (a b : ref) : result bool :=
  match n with
  | O => Raise RecursionError
  | S n' =>
      if Pos.eqb a b then Ok true else
      match h !! a, h !! b with
      | Some (SkillBasedRating m v), Some (SkillBasedRating m' v') =>
          Ok (float_eq m m' && float_eq v v')
      | Some (ConstantRating s v m), Some (ConstantRating s' v' m') =>
          Ok (Bool.eqb s s' && float_eq v v' && float_eq m m')
      | Some (RateableTotality nm rs), Some (RateableTotality nm' rs') =>
          if String.eqb nm nm' then
            if Nat.eqb (length rs) (length rs') then list_eq (rating_eq n' h) rs rs'
            else Ok false
          else Ok false
      | Some _, Some _ => Ok false
      | _, _ => Raise DanglingReference
      end
  end.

(** [Event.direction_of_weight]: [if rating == self.winner: return 1],
    else [-1]. *)
Definition direction_of_weight (n : nat) (h : heap) (e : Event) (rating : ref)
  : result Z :=
  b ← rating_eq n h rating (winner e);
  Ok (if (b : bool) then 1%Z else (-1)%Z).

(** ** The update formulas *)

(** [standard_mean_update(rating, event, won_or_lost)]; [None] stands for
    the default argument. *)
Definition standard_mean_update
    (n : nat) (h : heap) (rating : ref) (e : Event) (won_or_lost : option Z)
  : result R :=
  wl ← match won_or_lost with
       | None => direction_of_weight n h e rating
       | Some d => Ok d
       end;
  m ← mean n h rating;
  v ← variance n h rating;
  q ← float_div (v ^ 2 + tau (parameters e) ^ 2) (std_dev_of_performances e);
  Ok (m + (weight e * IZR wl) * (mean_scale e * q)).

(** [standard_variance_update(rating, event)]. *)
Definition standard_variance_update
    (n : nat) (h : heap) (rating : ref) (e : Event) : result R :=
  let tau_sqr := constant_additional_variance (parameters e) ^ 2 in
  v ← variance n h rating;
  let variance_sqr := v ^ 2 in
  q ← float_div (variance_sqr + tau_sqr) (std_dev_of_performances e ^ 2);
  math_sqrt ((variance_sqr + tau_sqr) * (1 - Rabs (weight e) * (variance_scale e * q))).

(** ** Updating ratings in place

    An update is a store transformer that also reports whether the call
    returned or raised; the store it leaves behind is kept in both cases,
    since an exception does not undo earlier assignments. *)

Definition update : Type := heap -> result unit * heap.

(** [for rating in ratings: body(rating)]. *)
Fixpoint for_each (body : ref -> update) (rs : list ref) : update :=
  fun h =>
    match rs with
    | [] => (Ok tt, h)
    | r :: rs' =>
        match body r h with
        | (Ok _, h') => for_each body rs' h'
        | (Raise x, h') => (Raise x, h')
        end
    end.

(** [rating.update_mean(event, won_or_lost)], dispatched on the class. *)
Fixpoint update_mean (n : nat) (r : ref) (e : Event) (won_or_lost : option Z)
  : update :=
  fun h =>
    match n with
    | O => (Raise RecursionError, h)
    | S n' =>
        match h !! r with
        | None => (Raise DanglingReference, h)
        | Some (SkillBasedRating m v) =>
            match standard_mean_update n' h r e won_or_lost with
            | Ok m' => (Ok tt, <[r := SkillBasedRating m' v]> h)
            | Raise x => (Raise x, h)
            end
        | Some (ConstantRating is_set v m) =>
            if is_set then (Ok tt, h) else
            match standard_mean_update n' h r e won_or_lost with
            | Ok m' => (Ok tt, <[r := ConstantRating is_set v m']> h)
            | Raise x => (Raise x, h)
            end
        | Some (RateableTotality _ rs) =>
            match direction_of_weight n' h e r with
            | Ok d => for_each (fun c => update_mean n' c e (Some d)) rs h
            | Raise x => (Raise x, h)
            end
        end
    end.

(** [rating.update_variance(event)], dispatched on the class. *)
Fixpoint update_variance (n : nat) (r : ref) (e : Event) : update :=
  fun h =>
    match n with
    | O => (Raise RecursionError, h)
    | S n' =>
        match h !! r with
        | None => (Raise DanglingReference, h)
        | Some (SkillBasedRating m v) =>
            match standard_variance_update n' h r e with
            | Ok v' => (Ok tt, <[r := SkillBasedRating m v']> h)
            | Raise x => (Raise x, h)
            end
        | Some (ConstantRating is_set v m) =>
            if is_set then (Ok tt, h) else
            match standard_variance_update n' h r e with
            | Ok v' => (Ok tt, <[r := ConstantRating is_set v' m]> h)
            | Raise x => (Raise x, h)
            end
        | Some (RateableTotality _ rs) =>
            for_each (fun c => update_variance n' c e) rs h
        end
    end.

(** [Rating.update_mean_and_variance(event)]: the mean first, then the
    variance, each with its default arguments. *)
Definition update_mean_and_variance (n : nat) (r : ref) (e : Event) : update :=
  fun h =>
    match n with
    | O => (Raise RecursionError, h)
    | S n' =>
        match update_mean n' r e None h with
        | (Ok _, h') => update_variance n' r e h'
        | (Raise x, h') => (Raise x, h')
        end
    end.

(** ** A match between two equally rated players

    Two distinct [SkillBasedRating] objects with the same mean [m] and the
    same variance [s]; [heap0] and [params0] are the values of the default
    TrueSkill setting (mean 25, variance 25/3, beta 25/6, tau 25/300). *)

Definition winner0 : ref := 1%positive.
Definition loser0 : ref := 2%positive.

Definition duel (m s : R) : heap :=
  <[loser0 := SkillBasedRating m s]> (<[winner0 := SkillBasedRating m s]> ∅).

Definition params0 : Parameters :=
  {| static_performance_spread := 25 / 6; constant_additional_variance := 25 / 300 |}.

Definition heap0 : heap := duel 25 (25 / 3).

(** The event that [Event(w, winner0, loser0, p, nm)] builds in [duel m s]. *)
Definition duel_event (w : R) (p : Parameters) (m s : R) (nm : string) : Event :=
  let d := m - m in
  let c := sqrt (IZR (1 + 1) * static_performance_spread p ^ 2 + s ^ 2 + s ^ 2) in
  let z := d / c in
  let v := pdf z / cdf z in
  {| weight := w; winner := winner0; loser := loser0; parameters := p; name := nm;
     delta := d; std_dev_of_performances := c; z_factor := z;
     mean_scale := v; variance_scale := _variance_scale v z |}.

Definition event0 : Event := duel_event 1 params0 25 (25 / 3) "first".

(** [v0] is the mean scale of an event between equal means. *)
Definition v0 : R := pdf 0 / cdf 0.

(** The step by which the means move, and the radicand of the new
    variance, when a player of [heap0] is updated with [event0]. *)
Definition gain0 : R :=
  mean_scale event0 *
  (((25 / 3) ^ 2 + tau (parameters event0) ^ 2) / std_dev_of_performances event0).

Definition radicand0 : R :=
  ((25 / 3) ^ 2 + tau (parameters event0) ^ 2) *
  (1 - Rabs (weight event0) *
         (variance_scale event0 *
            (((25 / 3) ^ 2 + tau (parameters event0) ^ 2)
             / std_dev_of_performances event0 ^ 2))).

(** The store after [winner.update_mean_and_variance(event0)] in [heap0],
    and then after [loser.update_mean_and_variance(event0)]. *)
Definition heap1 : heap :=
  <[winner0 := SkillBasedRating (25 + weight event0 * IZR 1 * gain0) (sqrt radicand0)]>
    (<[winner0 := SkillBasedRating (25 + weight event0 * IZR 1 * gain0) (25 / 3)]> heap0).

Definition heap2 : heap :=
  <[loser0 := SkillBasedRating (25 + weight event0 * IZR (-1) * gain0) (sqrt radicand0)]>
    (<[loser0 := SkillBasedRating (25 + weight event0 * IZR (-1) * gain0) (25 / 3)]> heap1).

(** The store after [loser.update_mean_and_variance(event0)] in [heap0],
    when the loser is updated before the winner, and then after
    [winner.update_mean_and_variance(event0)]. *)
Definition heap1_loser_first : heap :=
  <[loser0 := SkillBasedRating (25 + weight event0 * IZR 1 * gain0) (sqrt radicand0)]>
    (<[loser0 := SkillBasedRating (25 + weight event0 * IZR 1 * gain0) (25 / 3)]> heap0).

Definition heap2_loser_first : heap :=
  <[winner0 := SkillBasedRating (25 + weight event0 * IZR 1 * gain0) (sqrt radicand0)]>
    (<[winner0 := SkillBasedRating (25 + weight event0 * IZR 1 * gain0) (25 / 3)]>
       heap1_loser_first).

(** A setting whose tau is large against the variances, and the event of a
    match between two ratings of mean 0 and variance 1 under it. *)
Definition params_drift : Parameters :=
  {| static_performance_spread := 1; constant_additional_variance := 3 |}.

Definition event_drift : Event := duel_event 1 params_drift 0 1 "drift".

(** A team of the two players of [heap0]. *)
Definition team0 : ref := 3%positive.

Definition heap_team : heap :=
  <[team0 := RateableTotality "team" [winner0; loser0]]> heap0.

(** A frozen constant rating. *)
Definition heap_frozen : heap :=
  <[team0 := ConstantRating true 2 30]> heap0.

(** The spec's data-model invariant [variance >= 0], for every stored
    variance field of the store. *)
Definition variance_nonneg (h : heap) : Prop :=
  forall r, match h !! r with
            | Some (SkillBasedRating _ v) => 0 <= v
            | Some (ConstantRating _ v _) => 0 <= v
            | _ => True
            end.

(** The composite objects of [h] are still there, unchanged, in [h']. *)
Definition keeps_totalities (h h' : heap) : Prop :=
  forall t nm rs,
    h !! t = Some (RateableTotality nm rs) -> h' !! t = Some (RateableTotality nm rs).



(** A team of one player of [heap0] and one frozen constant rating. *)
Definition frozen0 : ref := 4%positive.

Definition heap_mixed : heap :=
  <[team0 := RateableTotality "mixed" [winner0; frozen0]]>
    (<[frozen0 := ConstantRating true 2 30]> heap0).

(** The object that [SkillBasedRating.update_mean] with direction [d], and
    [SkillBasedRating.update_variance], leave in the place of [o]. *)
Definition moved_mean (e : Event) (d : Z) (o : Rating) : Rating :=
  match o with
  | SkillBasedRating m v =>
      SkillBasedRating
        (m + (weight e * IZR d) *
             (mean_scale e *
                ((v ^ 2 + tau (parameters e) ^ 2) / std_dev_of_performances e)))
        v
  | _ => o
  end.

Definition variance_radicand (e : Event) (v : R) : R :=
  (v ^ 2 + tau (parameters e) ^ 2) *
  (1 - Rabs (weight e) *
         (variance_scale e *
            ((v ^ 2 + tau (parameters e) ^ 2) / std_dev_of_performances e ^ 2))).

Definition moved_variance (e : Event) (o : Rating) : Rating :=
  match o with
  | SkillBasedRating m v => SkillBasedRating m (sqrt (variance_radicand e v))
  | _ => o
  end.

Definition is_skill (o : Rating) : Prop :=
  match o with SkillBasedRating _ _ => True | _ => False end.

(** A team that lists itself among its members. *)
Definition heap_cyclic : heap :=
  <[team0 := RateableTotality "loop" [winner0; team0]]> heap0.

(** ** Copies of ratings *)

(** The creation of an object: it gets a reference that no object of the
    store has. *)
Definition allocate (o : Rating) (h : heap) : result ref * heap :=
  let a := fresh (dom h) in (Ok a, <[a := o]> h).

(** [[copy.copy(rating) for rating in ratings]]. *)
Fixpoint copy_all (cp : ref -> heap -> result ref * heap) (rs : list ref) (h : heap)
  : result (list ref) * heap :=
  match rs with
  | [] => (Ok [], h)
  | r :: rs' =>
      match cp r h with
      | (Ok a, h1) =>
          match copy_all cp rs' h1 with
          | (Ok rest, h2) => (Ok (a :: rest), h2)
          | (Raise x, h2) => (Raise x, h2)
          end
      | (Raise x, h1) => (Raise x, h1)
      end
  end.

(** [copy.copy(rating)]: [RateableTotality.__copy__] builds a new composite
    of the same name over copies of the ratings; the other classes define no
    [__copy__], so the copy is a new object with the same fields. *)
Fixpoint copy (n : nat) (r : ref) (h : heap) : result ref * heap :=
  match n with
  | O => (Raise RecursionError, h)
  | S n' =>
      match h !! r with
      | None => (Raise DanglingReference, h)
      | Some (RateableTotality nm rs) =>
          match copy_all (copy n') rs h with
          | (Ok rs', h') => allocate (RateableTotality nm rs') h'
          | (Raise x, h') => (Raise x, h')
          end
      | Some o => allocate o h
      end
  end.

(** The rating [a] of the store [h] and, down to depth [n], every rating
    below it are objects that the store [h0] does not have. *)
Fixpoint outside (n : nat) (h0 h : heap) (a : ref) : Prop :=
  h0 !! a = None /\
  match n with
  | O => True
  | S n' =>
      match h !! a with
      | Some (RateableTotality _ rs) => Forall (outside n' h0 h) rs
      | Some _ => True
      | None => False
      end
  end.

(** The radicand of the new variance of a [SkillBasedRating] is not negative. *)
Definition radicand_nonneg (e : Event) (o : Rating) : Prop :=
  match o with
  | SkillBasedRating _ v => 0 <= variance_radicand e v
  | _ => False
  end.

(** Two frozen constant ratings without any variance. *)
Definition heap_flat : heap :=
  <[loser0 := ConstantRating true 0 10]> (<[winner0 := ConstantRating true 0 12]> ∅).

(** ** Copies of events *)

(** [Event.copy_with(weight, winner, loser, parameters, name)]: every
    argument defaults to [None], which keeps the field of [self]; the new
    event is built by the constructor, in the store as it is at the call. *)
Definition copy_with (n : nat) (h : heap) (e : Event)
    (weight' : option R) (winner' loser' : option ref)
    (parameters' : option Parameters) (name' : option string) : result Event :=
  new_Event n h
    (match weight' with None => weight e | Some w => w end)
    (match winner' with None => winner e | Some r => r end)
    (match loser' with None => loser e | Some r => r end)
    (match parameters' with None => parameters e | Some p => p end)
    (match name' with None => name e | Some s => s end).

(** ** Devices for the proofs *)

(** The four dispatched reads have one shape: the stored value of a leaf,
    or a combination of the reads of the children. *)
Fixpoint read {A : Type} (leaf : Rating -> A) (combine : list A -> A)
    (n : nat) (h : heap) (r : ref) : result A :=
  match n with
  | O => Raise RecursionError
  | S n' =>
      match h !! r with
      | None => Raise DanglingReference
      | Some (RateableTotality _ rs) =>
          xs ← traverse (read leaf combine n' h) rs; Ok (combine xs)
      | Some o => Ok (leaf o)
      end
  end.

Definition leaf_mean (o : Rating) : R :=
  match o with
  | SkillBasedRating m _ => m
  | ConstantRating _ _ m => m
  | RateableTotality _ _ => 0
  end.

Definition leaf_variance (o : Rating) : R :=
  match o with
  | SkillBasedRating _ v => v
  | ConstantRating _ v _ => v
  | RateableTotality _ _ => 0
  end.

Definition leaf_beta_count (o : Rating) : Z :=
  match o with
  | SkillBasedRating _ _ => 1%Z
  | ConstantRating _ _ _ => 0%Z
  | RateableTotality _ _ => 0%Z
  end.

Definition leaf_sigma (o : Rating) : R := leaf_variance o ^ 2.

(** Two stores related object by object. *)
Definition pointwise (Q : Rating -> Rating -> Prop) (h h' : heap) : Prop :=
  forall r, option_Forall2 Q (h !! r) (h' !! r).

(** What an update of means may change in an object: the mean of a rating
    that is not frozen, and nothing else. *)
Definition mean_changed (o o' : Rating) : Prop :=
  match o, o' with
  | SkillBasedRating _ v, SkillBasedRating _ v' => v = v'
  | ConstantRating s v m, ConstantRating s' v' m' =>
      s = s' /\ v = v' /\ (s = true -> m = m')
  | RateableTotality nm rs, RateableTotality nm' rs' => nm = nm' /\ rs = rs'
  | _, _ => False
  end.

(** What an update of variances may change in an object. *)
Definition variance_changed (o o' : Rating) : Prop :=
  match o, o' with
  | SkillBasedRating m _, SkillBasedRating m' _ => m = m'
  | ConstantRating s v m, ConstantRating s' v' m' =>
      s = s' /\ m = m' /\ (s = true -> v = v')
  | RateableTotality nm rs, RateableTotality nm' rs' => nm = nm' /\ rs = rs'
  | _, _ => False
  end.

(** What any update may change in an object: the mean and the variance of
    a rating that is not frozen. *)
Definition rating_changed (o o' : Rating) : Prop :=
  match o, o' with
  | SkillBasedRating _ _, SkillBasedRating _ _ => True
  | ConstantRating s v m, ConstantRating s' v' m' =>
      s = s' /\ (s = true -> v = v' /\ m = m')
  | RateableTotality nm rs, RateableTotality nm' rs' => nm = nm' /\ rs = rs'
  | _, _ => False
  end.

(** Objects of one class with the same children and the same value of
    [leaf]. *)
Definition same_leaf {A : Type} (leaf : Rating -> A) (o o' : Rating) : Prop :=
  match o, o' with
  | RateableTotality _ rs, RateableTotality _ rs' => rs = rs'
  | RateableTotality _ _, _ | _, RateableTotality _ _ => False
  | _, _ => leaf o = leaf o'
  end.

(** * Properties *)

(** ** Float primitives and the normal distribution *)

Lemma float_div_ok (x y : R) : y <> 0 -> float_div x y = Ok (x / y).
Proof. intros Hy. unfold float_div. destruct (Req_dec_T y 0); [contradiction | reflexivity]. Qed.

Lemma float_div_zero (x : R) : float_div x 0 = Raise ZeroDivisionError.
Proof. unfold float_div. destruct (Req_dec_T 0 0); [reflexivity | contradiction]. Qed.

Lemma math_sqrt_ok (x : R) : 0 <= x -> math_sqrt x = Ok (sqrt x).
Proof. intros Hx. unfold math_sqrt. destruct (Rlt_dec x 0); [lra | reflexivity]. Qed.

Lemma math_sqrt_neg (x : R) : x < 0 -> math_sqrt x = Raise ValueError.
Proof. intros Hx. unfold math_sqrt. destruct (Rlt_dec x 0); [reflexivity | lra]. Qed.

Lemma float_eq_true (x y : R) : float_eq x y = true <-> x = y.
Proof. unfold float_eq. destruct (Req_dec_T x y); split; congruence. Qed.

Lemma float_eq_refl (x : R) : float_eq x x = true.
Proof. apply float_eq_true. reflexivity. Qed.

Lemma float_eq_false (x y : R) : x <> y -> float_eq x y = false.
Proof. intros H. unfold float_eq. destruct (Req_dec_T x y); [contradiction | reflexivity]. Qed.

Lemma PI_lower : 3.1415 < PI.
Proof.
  pose proof (PI_2_3_7_ineq 1) as [H _].
  unfold sum_f_R0, tg_alt, PI_2_3_7_tg, Ratan_seq in H; simpl in H. lra.
Qed.

Lemma PI_upper : PI < 3.1416.
Proof.
  pose proof (PI_2_3_7_ineq 2) as [_ H].
  unfold sum_f_R0, tg_alt, PI_2_3_7_tg, Ratan_seq in H; simpl in H. lra.
Qed.

Lemma erf_0 : erf 0 = 0.
Proof. unfold erf. rewrite RiemannInt_P9. lra. Qed.

Lemma cdf_0 : cdf 0 = 1 / 2.
Proof.
  unfold cdf. replace (0 / (1 * sqrt 2)) with 0 by (unfold Rdiv; lra).
  rewrite erf_0. lra.
Qed.

Lemma pdf_0 : pdf 0 = / sqrt (2 * PI).
Proof.
  unfold pdf. replace (0 * 0 / (-2 * (1 * 1))) with 0 by lra.
  rewrite exp_0. replace (2 * PI * (1 * 1)) with (2 * PI) by lra. lra.
Qed.

Lemma v0_pos : 0 < v0.
Proof.
  unfold v0. rewrite pdf_0, cdf_0.
  assert (0 < sqrt (2 * PI)) by (apply sqrt_lt_R0; pose proof PI_lower; lra).
  apply Rdiv_lt_0_compat; [apply Rinv_0_lt_compat; assumption | lra].
Qed.

Lemma v0_sqr : v0 * v0 * PI = 2.
Proof.
  unfold v0. rewrite pdf_0, cdf_0.
  assert (Hpi : 0 <= 2 * PI) by (pose proof PI_lower; lra).
  assert (Hs : 0 < sqrt (2 * PI)) by (apply sqrt_lt_R0; pose proof PI_lower; lra).
  pose proof (sqrt_sqrt (2 * PI) Hpi) as Hss.
  assert (Hne : sqrt (2 * PI) <> 0) by lra.
  replace (/ sqrt (2 * PI) / (1 / 2) * (/ sqrt (2 * PI) / (1 / 2)) * PI)
    with (2 * (2 * PI) / (sqrt (2 * PI) * sqrt (2 * PI))) by (field; assumption).
  rewrite Hss. field. pose proof PI_lower; lra.
Qed.

Lemma v0_bounds : 0.79785 < v0 < 0.79795.
Proof.
  pose proof v0_pos. pose proof v0_sqr. pose proof PI_lower. pose proof PI_upper.
  split; nra.
Qed.

(** ** Reading the fields of a stored leaf rating *)

Section LeafReads.
Variables (h : heap) (r : ref) (n : nat).

Lemma mean_skill m v :
  h !! r = Some (SkillBasedRating m v) -> mean (S n) h r = Ok m.
Proof. intros H. simpl. rewrite H. reflexivity. Qed.

Lemma variance_skill m v :
  h !! r = Some (SkillBasedRating m v) -> variance (S n) h r = Ok v.
Proof. intros H. simpl. rewrite H. reflexivity. Qed.

Lemma mean_constant s m v :
  h !! r = Some (ConstantRating s v m) -> mean (S n) h r = Ok m.
Proof. intros H. simpl. rewrite H. reflexivity. Qed.

Lemma variance_constant s m v :
  h !! r = Some (ConstantRating s v m) -> variance (S n) h r = Ok v.
Proof. intros H. simpl. rewrite H. reflexivity. Qed.
End LeafReads.

(** ** Construction of events *)

Lemma new_Event_ok n h w win los p nm mw ml bw bl sw sl :
  mean n h win = Ok mw ->
  mean n h los = Ok ml ->
  beta_count n h win = Ok bw ->
  beta_count n h los = Ok bl ->
  sigma_variance_for_std_dev n h win = Ok sw ->
  sigma_variance_for_std_dev n h los = Ok sl ->
  0 < IZR (bw + bl) * static_performance_spread p ^ 2 + sw + sl ->
  cdf ((mw - ml) / sqrt (IZR (bw + bl) * static_performance_spread p ^ 2 + sw + sl)) <> 0 ->
  new_Event n h w win los p nm =
    let d := mw - ml in
    let c := sqrt (IZR (bw + bl) * static_performance_spread p ^ 2 + sw + sl) in
    let z := d / c in
    let v := pdf z / cdf z in
    Ok {| weight := w; winner := win; loser := los; parameters := p; name := nm;
          delta := d; std_dev_of_performances := c; z_factor := z;
          mean_scale := v; variance_scale := v * (v + z) |}.
Proof.
  intros Hmw Hml Hbw Hbl Hsw Hsl Hpos Hcdf.
  unfold new_Event, _delta, _std_dev_of_performances, _z_factor, _mean_scale.
  rewrite Hmw, Hml, Hbw, Hbl, Hsw, Hsl. simpl.
  rewrite math_sqrt_ok by lra. simpl.
  rewrite float_div_ok by (apply Rgt_not_eq, sqrt_lt_R0; exact Hpos). simpl.
  rewrite float_div_ok by exact Hcdf. reflexivity.
Qed.

(** Every event that was constructed has a non-zero performance spread. *)
Lemma new_Event_std_dev_nonzero n h w win los p nm e :
  new_Event n h w win los p nm = Ok e -> std_dev_of_performances e <> 0.
Proof.
  unfold new_Event, _z_factor, float_div.
  destruct (_delta n h win los) as [d|]; simpl; [|discriminate].
  destruct (_std_dev_of_performances n h win los p) as [c|]; simpl; [|discriminate].
  destruct (Req_dec_T c 0) as [|Hc]; simpl; [discriminate|].
  destruct (_mean_scale (d / c)); simpl; [|discriminate].
  intros [= <-]. exact Hc.
Qed.

(** *** The event of a match between equally rated players *)

Lemma duel_lookup_winner m s : duel m s !! winner0 = Some (SkillBasedRating m s).
Proof. reflexivity. Qed.

Lemma duel_lookup_loser m s : duel m s !! loser0 = Some (SkillBasedRating m s).
Proof. reflexivity. Qed.

Lemma duel_spread_pos (p : Parameters) (s : R) :
  0 < s -> 0 < IZR (1 + 1) * static_performance_spread p ^ 2 + s ^ 2 + s ^ 2.
Proof.
  intros Hs. change (IZR (1 + 1)) with 2.
  pose proof (pow2_ge_0 (static_performance_spread p)).
  assert (0 < s ^ 2) by (apply pow_lt; exact Hs). lra.
Qed.

Lemma duel_z_factor (m c : R) : (m - m) / c = 0.
Proof. unfold Rdiv. rewrite Rminus_diag. apply Rmult_0_l. Qed.

Lemma cdf_0_nonzero : cdf 0 <> 0.
Proof. rewrite cdf_0. lra. Qed.

Lemma new_Event_duel w p m s nm :
  0 < s ->
  new_Event 1 (duel m s) w winner0 loser0 p nm = Ok (duel_event w p m s nm).
Proof.
  intros Hs.
  rewrite (new_Event_ok 1 (duel m s) w winner0 loser0 p nm m m 1 1 (s ^ 2) (s ^ 2));
    try reflexivity.
  - apply duel_spread_pos, Hs.
  - rewrite duel_z_factor. apply cdf_0_nonzero.
Qed.

Lemma duel_event_z w p m s nm : z_factor (duel_event w p m s nm) = 0.
Proof. unfold duel_event; simpl. apply duel_z_factor. Qed.

Lemma duel_event_v w p m s nm : mean_scale (duel_event w p m s nm) = v0.
Proof. unfold duel_event, v0; simpl. rewrite duel_z_factor. reflexivity. Qed.

Lemma duel_event_w w p m s nm : variance_scale (duel_event w p m s nm) = v0 * v0.
Proof.
  unfold duel_event, v0, _variance_scale; simpl. rewrite duel_z_factor. lra.
Qed.

(** C3: constructing an [Event] computes, and stores, the five derived
    statistics from its inputs: [delta = winner.mean - loser.mean],
    [std_dev_of_performances = sqrt((winner.beta_count + loser.beta_count) *
    beta^2 + winner.sigma_variance_for_std_dev() +
    loser.sigma_variance_for_std_dev())], [z_factor = delta / c],
    [mean_scale = pdf(z_factor) / cdf(z_factor)] and [variance_scale =
    mean_scale * (mean_scale + z_factor)].  The construction returns when
    the reads of the two ratings return, the radicand is positive and the
    cdf is not zero at the z-factor. *)
Theorem new_Event_derived_statistics n h w win los p nm mw ml bw bl sw sl :
  mean n h win = Ok mw ->
  mean n h los = Ok ml ->
  beta_count n h win = Ok bw ->
  beta_count n h los = Ok bl ->
  sigma_variance_for_std_dev n h win = Ok sw ->
  sigma_variance_for_std_dev n h los = Ok sl ->
  0 < IZR (bw + bl) * beta p ^ 2 + sw + sl ->
  cdf ((mw - ml) / sqrt (IZR (bw + bl) * beta p ^ 2 + sw + sl)) <> 0 ->
  exists e : Event,
    new_Event n h w win los p nm = Ok e /\
    weight e = w /\ winner e = win /\ loser e = los /\
    parameters e = p /\ name e = nm /\
    delta e = mw - ml /\
    std_dev_of_performances e = sqrt (IZR (bw + bl) * beta p ^ 2 + sw + sl) /\
    z_factor e = delta e / std_dev_of_performances e /\
    mean_scale e = pdf (z_factor e) / cdf (z_factor e) /\
    variance_scale e = mean_scale e * (mean_scale e + z_factor e).
Proof.
  unfold beta. intros Hmw Hml Hbw Hbl Hsw Hsl Hpos Hcdf.
  eexists. split.
  - exact (new_Event_ok n h w win los p nm mw ml bw bl sw sl
             Hmw Hml Hbw Hbl Hsw Hsl Hpos Hcdf).
  - simpl. repeat split; reflexivity.
Qed.

Lemma new_Event_derived_statistics_witness :
  exists e : Event,
    new_Event 1 heap0 1 winner0 loser0 params0 "first" = Ok e /\
    weight e = 1 /\ winner e = winner0 /\ loser e = loser0 /\
    parameters e = params0 /\ name e = "first"%string /\
    delta e = 25 - 25 /\
    std_dev_of_performances e
      = sqrt (IZR (1 + 1) * beta params0 ^ 2 + (25 / 3) ^ 2 + (25 / 3) ^ 2) /\
    z_factor e = delta e / std_dev_of_performances e /\
    mean_scale e = pdf (z_factor e) / cdf (z_factor e) /\
    variance_scale e = mean_scale e * (mean_scale e + z_factor e).
Proof.
  apply (new_Event_derived_statistics 1 heap0 1 winner0 loser0 params0 "first"
           25 25 1 1 ((25 / 3) ^ 2) ((25 / 3) ^ 2));
    try reflexivity.
  - apply (duel_spread_pos params0 (25 / 3)). lra.
  - rewrite duel_z_factor. apply cdf_0_nonzero.
Defined.

(** ** The direction of an update *)

Lemma direction_of_weight_values n h e r d :
  direction_of_weight n h e r = Ok d -> d = 1%Z \/ d = (-1)%Z.
Proof.
  unfold direction_of_weight. destruct (rating_eq n h r (winner e)) as [[]|]; simpl;
    intros [= <-]; auto.
Qed.

(** The stored winner itself always has direction [+1]. *)
Lemma direction_of_weight_winner n h e :
  direction_of_weight (S n) h e (winner e) = Ok 1%Z.
Proof. unfold direction_of_weight. simpl. rewrite Pos.eqb_refl. reflexivity. Qed.

(** Two distinct [SkillBasedRating] objects are [==] exactly when their
    fields agree. *)
Lemma rating_eq_skill n h a b m v m' v' :
  a <> b ->
  h !! a = Some (SkillBasedRating m v) ->
  h !! b = Some (SkillBasedRating m' v') ->
  rating_eq (S n) h a b = Ok (float_eq m m' && float_eq v v').
Proof.
  intros Hab Ha Hb. simpl.
  destruct (Pos.eqb_spec a b) as [|_]; [contradiction|].
  rewrite Ha, Hb. reflexivity.
Qed.

(** C1, evaluated on the code: in a match between two distinct rating
    objects of equal mean and variance, [direction_of_weight] of the stored
    loser is [+1], because [==] compares the dataclass fields, not the
    identity of the objects. *)
Theorem direction_of_weight_loser_of_equal_value :
  new_Event 1 heap0 1 winner0 loser0 params0 "first" = Ok event0 /\
  winner event0 = winner0 /\ loser event0 = loser0 /\ loser0 <> winner0 /\
  direction_of_weight 1 heap0 event0 loser0 = Ok 1%Z.
Proof.
  split; [apply new_Event_duel; lra|].
  repeat split; [discriminate|].
  unfold direction_of_weight.
  rewrite (rating_eq_skill 0 heap0 loser0 (winner event0) 25 (25 / 3) 25 (25 / 3));
    [| discriminate | reflexivity | reflexivity].
  rewrite !float_eq_refl. reflexivity.
Qed.

(** ** The mean update *)

Lemma standard_mean_update_some n h rating e d m v :
  mean n h rating = Ok m ->
  variance n h rating = Ok v ->
  std_dev_of_performances e <> 0 ->
  standard_mean_update n h rating e (Some d) =
    Ok (m + (weight e * IZR d) *
            (mean_scale e *
               ((v ^ 2 + tau (parameters e) ^ 2) / std_dev_of_performances e))).
Proof.
  intros Hm Hv Hc. unfold standard_mean_update. simpl.
  rewrite Hm, Hv. simpl. rewrite float_div_ok by exact Hc. reflexivity.
Qed.

Lemma standard_mean_update_none n h rating e :
  standard_mean_update n h rating e None =
    d ← direction_of_weight n h e rating;
    standard_mean_update n h rating e (Some d).
Proof.
  unfold standard_mean_update.
  destruct (direction_of_weight n h e rating); reflexivity.
Qed.

Lemma update_mean_skill n h r e wl m v m' :
  h !! r = Some (SkillBasedRating m v) ->
  standard_mean_update n h r e wl = Ok m' ->
  update_mean (S n) r e wl h = (Ok tt, <[r := SkillBasedRating m' v]> h).
Proof. intros Hr Hm. simpl. rewrite Hr, Hm. reflexivity. Qed.

(** C4: [standard_mean_update(rating, event, won_or_lost)] returns
    [rating.mean + (event.weight * won_or_lost) * (event.mean_scale *
    ((rating.variance^2 + tau^2) / event.std_dev_of_performances))]; an
    unspecified [won_or_lost] is first derived by
    [event.direction_of_weight(rating)].  The function only reads the store
    and the event: it returns a float and no store, and when
    [SkillBasedRating.update_mean] calls it, the store changes by the
    caller's assignment of the returned mean and by nothing else. *)
Theorem standard_mean_update_formula n h rating e m v :
  mean n h rating = Ok m ->
  variance n h rating = Ok v ->
  std_dev_of_performances e <> 0 ->
  (forall d : Z,
     standard_mean_update n h rating e (Some d) =
       Ok (m + (weight e * IZR d) *
               (mean_scale e *
                  ((v ^ 2 + tau (parameters e) ^ 2) / std_dev_of_performances e)))) /\
  standard_mean_update n h rating e None =
    (d ← direction_of_weight n h e rating;
     standard_mean_update n h rating e (Some d)) /\
  (forall (wl : option Z) (m0 s0 m' : R),
     h !! rating = Some (SkillBasedRating m0 s0) ->
     standard_mean_update n h rating e wl = Ok m' ->
     update_mean (S n) rating e wl h
       = (Ok tt, <[rating := SkillBasedRating m' s0]> h)).
Proof.
  intros Hm Hv Hc. split; [|split].
  - intros d. apply standard_mean_update_some; assumption.
  - apply standard_mean_update_none.
  - intros wl m0 s0 m' Hr Hu. eapply update_mean_skill; eassumption.
Qed.

(** ** The variance update *)

Lemma standard_variance_update_unfold n h rating e v :
  variance n h rating = Ok v ->
  std_dev_of_performances e <> 0 ->
  standard_variance_update n h rating e =
    math_sqrt ((v ^ 2 + tau (parameters e) ^ 2) *
               (1 - Rabs (weight e) *
                      (variance_scale e *
                         ((v ^ 2 + tau (parameters e) ^ 2)
                          / std_dev_of_performances e ^ 2)))).
Proof.
  intros Hv Hc. unfold standard_variance_update, tau. rewrite Hv. simpl.
  rewrite float_div_ok; [reflexivity|].
  intros H0. apply Hc. apply Rmult_integral in H0. destruct H0 as [H0|H0]; [exact H0|].
  apply Rmult_integral in H0. destruct H0 as [H0|H0]; [exact H0|lra].
Qed.

Lemma update_variance_skill n h r e m v v' :
  h !! r = Some (SkillBasedRating m v) ->
  standard_variance_update n h r e = Ok v' ->
  update_variance (S n) r e h = (Ok tt, <[r := SkillBasedRating m v']> h).
Proof. intros Hr Hv. simpl. rewrite Hr, Hv. reflexivity. Qed.

(** C5: [standard_variance_update(rating, event)] returns the square root
    of [(variance^2 + tau^2) * (1 - |weight| * (variance_scale *
    ((variance^2 + tau^2) / std_dev_of_performances^2)))], and when that
    radicand is negative the call raises [ValueError] (the "math domain
    error" of [math.sqrt]) instead of returning a value. *)
Theorem standard_variance_update_formula n h rating e v :
  variance n h rating = Ok v ->
  std_dev_of_performances e <> 0 ->
  let radicand :=
    (v ^ 2 + tau (parameters e) ^ 2) *
    (1 - Rabs (weight e) *
           (variance_scale e *
              ((v ^ 2 + tau (parameters e) ^ 2) / std_dev_of_performances e ^ 2))) in
  (0 <= radicand -> standard_variance_update n h rating e = Ok (sqrt radicand)) /\
  (radicand < 0 -> standard_variance_update n h rating e = Raise ValueError).
Proof.
  intros Hv Hc radicand.
  rewrite (standard_variance_update_unfold n h rating e v Hv Hc).
  fold radicand. split; intros H.
  - apply math_sqrt_ok, H.
  - apply math_sqrt_neg, H.
Qed.

(** C10: the variance update does not depend on the direction.  Its result
    is determined by the rating's variance, the absolute value of the
    weight, tau and the event's [variance_scale] and
    [std_dev_of_performances]; so for one event, two ratings of equal
    variance, read in any two stores, get the same new variance, whichever
    of them is the winner. *)
Theorem standard_variance_update_direction_free n h1 h2 r1 r2 e1 e2 :
  variance n h1 r1 = variance n h2 r2 ->
  Rabs (weight e1) = Rabs (weight e2) ->
  constant_additional_variance (parameters e1)
    = constant_additional_variance (parameters e2) ->
  variance_scale e1 = variance_scale e2 ->
  std_dev_of_performances e1 = std_dev_of_performances e2 ->
  standard_variance_update n h1 r1 e1 = standard_variance_update n h2 r2 e2.
Proof.
  intros Hv Hw Ht Hs Hc. unfold standard_variance_update.
  rewrite Hv, Hw, Ht, Hs, Hc. reflexivity.
Qed.

(** *** Instances of the update formulas *)

Lemma duel_event_c_pos w p m s nm :
  0 < s -> 0 < std_dev_of_performances (duel_event w p m s nm).
Proof. intros Hs. unfold duel_event; simpl. apply sqrt_lt_R0, duel_spread_pos, Hs. Qed.

Lemma duel_event_c_sqr w p m s nm :
  0 < s ->
  std_dev_of_performances (duel_event w p m s nm) ^ 2
    = 2 * static_performance_spread p ^ 2 + s ^ 2 + s ^ 2.
Proof.
  intros Hs. unfold duel_event; simpl std_dev_of_performances.
  rewrite pow2_sqrt; [reflexivity|]. left. apply duel_spread_pos, Hs.
Qed.

Lemma v0_sqr_bounds : 0.6366 < v0 * v0 < 0.6367.
Proof. pose proof v0_sqr. pose proof PI_lower. pose proof PI_upper. split; nra. Qed.

Lemma standard_mean_update_formula_witness :
  standard_mean_update 1 heap0 winner0 event0 (Some 1%Z) =
    Ok (25 + (weight event0 * IZR 1) *
             (mean_scale event0 *
                (((25 / 3) ^ 2 + tau (parameters event0) ^ 2)
                 / std_dev_of_performances event0))).
Proof.
  refine (proj1 (standard_mean_update_formula 1 heap0 winner0 event0 25 (25 / 3)
                   eq_refl eq_refl _) 1%Z).
  apply Rgt_not_eq, duel_event_c_pos. lra.
Defined.

Lemma event_drift_radicand :
  (1 ^ 2 + tau (parameters event_drift) ^ 2) *
  (1 - Rabs (weight event_drift) *
         (variance_scale event_drift *
            ((1 ^ 2 + tau (parameters event_drift) ^ 2)
             / std_dev_of_performances event_drift ^ 2))) < 0.
Proof.
  unfold event_drift. rewrite duel_event_w, duel_event_c_sqr by lra.
  simpl weight. simpl parameters. unfold tau, params_drift; simpl constant_additional_variance.
  simpl static_performance_spread. rewrite Rabs_R1.
  pose proof v0_sqr_bounds. nra.
Qed.

Lemma standard_variance_update_formula_witness :
  new_Event 1 (duel 0 1) 1 winner0 loser0 params_drift "drift" = Ok event_drift /\
  standard_variance_update 1 (duel 0 1) winner0 event_drift = Raise ValueError.
Proof.
  split; [apply new_Event_duel; lra|].
  refine (proj2 (standard_variance_update_formula 1 (duel 0 1) winner0 event_drift 1
                   eq_refl _) event_drift_radicand).
  apply Rgt_not_eq, duel_event_c_pos. lra.
Defined.

Lemma standard_variance_update_direction_free_witness :
  standard_variance_update 1 heap0 winner0 event0
    = standard_variance_update 1 heap0 loser0 event0.
Proof.
  exact (standard_variance_update_direction_free 1 heap0 heap0 winner0 loser0
           event0 event0 eq_refl eq_refl eq_refl eq_refl eq_refl).
Defined.

(** ** Frozen constant ratings *)

(** C7: for a [ConstantRating] with [is_set = True] and for every event,
    [update_mean], [update_variance] and [update_mean_and_variance] return
    without changing the store; in particular the rating's mean and
    variance are what they were. *)
Theorem constant_rating_frozen n h r v m e :
  h !! r = Some (ConstantRating true v m) ->
  (forall wl, update_mean (S n) r e wl h = (Ok tt, h)) /\
  update_variance (S n) r e h = (Ok tt, h) /\
  update_mean_and_variance (S (S n)) r e h = (Ok tt, h) /\
  mean (S n) h r = Ok m /\ variance (S n) h r = Ok v.
Proof.
  intros Hr. repeat split.
  - intros wl. simpl. rewrite Hr. reflexivity.
  - simpl. rewrite Hr. reflexivity.
  - simpl. rewrite Hr. simpl. rewrite Hr. reflexivity.
  - simpl. rewrite Hr. reflexivity.
  - simpl. rewrite Hr. reflexivity.
Qed.

Lemma constant_rating_frozen_witness :
  update_mean_and_variance 2 team0 event0 heap_frozen = (Ok tt, heap_frozen) /\
  mean 1 heap_frozen team0 = Ok 30 /\ variance 1 heap_frozen team0 = Ok 2.
Proof.
  destruct (constant_rating_frozen 0 heap_frozen team0 2 30 event0 eq_refl)
    as (_ & _ & Hmv & Hm & Hv).
  exact (conj Hmv (conj Hm Hv)).
Defined.

(** ** The weight of an event is not validated *)

(** C6, as the code has it: the constructor stores the weight and never
    inspects it.  Whether the construction returns or raises, and all other
    fields of the event, are the same for every weight. *)
Theorem new_Event_ignores_weight n h w w' win los p nm :
  new_Event n h w win los p nm =
    match new_Event n h w' win los p nm with
    | Ok e => Ok {| weight := w; winner := winner e; loser := loser e;
                    parameters := parameters e; name := name e;
                    delta := delta e;
                    std_dev_of_performances := std_dev_of_performances e;
                    z_factor := z_factor e; mean_scale := mean_scale e;
                    variance_scale := variance_scale e |}
    | Raise x => Raise x
    end.
Proof.
  unfold new_Event.
  destruct (_delta n h win los) as [d|]; simpl; [|reflexivity].
  destruct (_std_dev_of_performances n h win los p) as [c|]; simpl; [|reflexivity].
  destruct (_z_factor d c) as [z|]; simpl; [|reflexivity].
  destruct (_mean_scale z); reflexivity.
Qed.

(** C6 fails on the code: with weight 2, weight 0 and weight -1 the
    construction returns an event that stores that weight. *)
Lemma new_Event_weight_out_of_range :
  ~ (0 < 2 <= 1) /\ ~ (0 < 0 <= 1) /\ ~ (0 < -1 <= 1) /\
  (exists e, new_Event 1 heap0 2 winner0 loser0 params0 "first" = Ok e /\ weight e = 2) /\
  (exists e, new_Event 1 heap0 0 winner0 loser0 params0 "first" = Ok e /\ weight e = 0) /\
  (exists e, new_Event 1 heap0 (-1) winner0 loser0 params0 "first" = Ok e /\ weight e = -1).
Proof.
  repeat split; try lra;
    (eexists; split; [apply new_Event_duel; lra | reflexivity]).
Qed.

(** ** Composite ratings *)

Lemma sum_cons (x : R) (l : list R) : sum (x :: l) = x + sum l.
Proof.
  unfold sum. simpl. rewrite Rplus_0_l.
  assert (G : forall (l : list R) (a b : R),
             fold_left Rplus l (a + b) = a + fold_left Rplus l b).
  { clear. induction l as [|y l IH]; intros a b; simpl; [reflexivity|].
    rewrite Rplus_assoc. apply IH. }
  rewrite <- (Rplus_0_r x) at 1. apply G.
Qed.

Lemma sum_pair (x y : R) : sum [x; y] = x + y.
Proof. unfold sum. simpl. lra. Qed.

Lemma sumZ_pair (x y : Z) : sumZ [x; y] = (x + y)%Z.
Proof. reflexivity. Qed.

Lemma keeps_totalities_refl h : keeps_totalities h h.
Proof. intros t nm rs H. exact H. Qed.

Lemma keeps_totalities_trans h1 h2 h3 :
  keeps_totalities h1 h2 -> keeps_totalities h2 h3 -> keeps_totalities h1 h3.
Proof. intros H12 H23 t nm rs H. apply H23, H12, H. Qed.

Lemma keeps_totalities_insert h r (o : Rating) :
  (forall nm rs, h !! r <> Some (RateableTotality nm rs)) ->
  keeps_totalities h (<[r := o]> h).
Proof.
  intros Hr t nm rs Ht.
  destruct (decide (r = t)) as [->|Hne].
  - exfalso. exact (Hr nm rs Ht).
  - rewrite lookup_insert_ne by exact Hne. exact Ht.
Qed.

Lemma for_each_keeps (body : ref -> update) (rs : list ref) :
  (forall c h res h', body c h = (res, h') -> keeps_totalities h h') ->
  forall h res h', for_each body rs h = (res, h') -> keeps_totalities h h'.
Proof.
  intros Hbody. induction rs as [|c rs IH]; intros h res h' H; simpl in H.
  - injection H as _ <-. apply keeps_totalities_refl.
  - destruct (body c h) as [[[]|x] h1] eqn:Hc.
    + eapply keeps_totalities_trans; [eapply Hbody, Hc | eapply IH, H].
    + injection H as _ <-. eapply Hbody, Hc.
Qed.

Lemma update_mean_keeps n :
  forall r e wl h res h',
    update_mean n r e wl h = (res, h') -> keeps_totalities h h'.
Proof.
  induction n as [|n IH]; intros r e wl h res h' H; simpl in H.
  - injection H as _ <-. apply keeps_totalities_refl.
  - destruct (h !! r) as [[m v|s v m|nm rs]|] eqn:Hr.
    + destruct (standard_mean_update n h r e wl); injection H as _ <-;
        [|apply keeps_totalities_refl].
      apply keeps_totalities_insert. intros nm rs Hc. congruence.
    + destruct s; [injection H as _ <-; apply keeps_totalities_refl|].
      destruct (standard_mean_update n h r e wl); injection H as _ <-;
        [|apply keeps_totalities_refl].
      apply keeps_totalities_insert. intros nm rs Hc. congruence.
    + destruct (direction_of_weight n h e r) as [d|];
        [|injection H as _ <-; apply keeps_totalities_refl].
      eapply for_each_keeps; [|exact H]. intros c h0 res0 h0'. apply IH.
    + injection H as _ <-. apply keeps_totalities_refl.
Qed.

Lemma update_variance_keeps n :
  forall r e h res h',
    update_variance n r e h = (res, h') -> keeps_totalities h h'.
Proof.
  induction n as [|n IH]; intros r e h res h' H; simpl in H.
  - injection H as _ <-. apply keeps_totalities_refl.
  - destruct (h !! r) as [[m v|s v m|nm rs]|] eqn:Hr.
    + destruct (standard_variance_update n h r e); injection H as _ <-;
        [|apply keeps_totalities_refl].
      apply keeps_totalities_insert. intros nm rs Hc. congruence.
    + destruct s; [injection H as _ <-; apply keeps_totalities_refl|].
      destruct (standard_variance_update n h r e); injection H as _ <-;
        [|apply keeps_totalities_refl].
      apply keeps_totalities_insert. intros nm rs Hc. congruence.
    + eapply for_each_keeps; [|exact H]. intros c h0 res0 h0'. apply IH.
    + injection H as _ <-. apply keeps_totalities_refl.
Qed.

Lemma update_mean_and_variance_keeps n r e h res h' :
  update_mean_and_variance n r e h = (res, h') -> keeps_totalities h h'.
Proof.
  destruct n as [|n]; simpl; intros H.
  - injection H as _ <-. apply keeps_totalities_refl.
  - destruct (update_mean n r e None h) as [[[]|x] h1] eqn:Hm.
    + eapply keeps_totalities_trans;
        [eapply update_mean_keeps, Hm | eapply update_variance_keeps, H].
    + injection H as _ <-. eapply update_mean_keeps, Hm.
Qed.

Lemma totality_pair_reads n h t nm c1 c2 :
  h !! t = Some (RateableTotality nm [c1; c2]) ->
  mean (S n) h t = (m1 ← mean n h c1; m2 ← mean n h c2; Ok (m1 + m2)) /\
  beta_count (S n) h t
    = (b1 ← beta_count n h c1; b2 ← beta_count n h c2; Ok (b1 + b2)%Z) /\
  variance (S n) h t
    = (v1 ← variance n h c1; v2 ← variance n h c2; Ok (v1 + v2)).
Proof.
  intros Ht. repeat split; simpl; rewrite Ht; simpl.
  - destruct (mean n h c1); simpl; [|reflexivity].
    destruct (mean n h c2); simpl; [|reflexivity]. rewrite sum_pair. reflexivity.
  - destruct (beta_count n h c1); simpl; [|reflexivity].
    destruct (beta_count n h c2); simpl; reflexivity.
  - destruct (variance n h c1); simpl; [|reflexivity].
    destruct (variance n h c2); simpl; [|reflexivity]. rewrite sum_pair. reflexivity.
Qed.

(** C8: a [RateableTotality] with children [[c1, c2]] reads its [mean],
    [beta_count] and [variance] as the sums of its children's current
    values, in every store; and after any [update_mean_and_variance] call,
    on any rating and with any event, whether it returns or raises, the
    reads are the sums of the children's values in the store the call left
    behind. *)
Theorem totality_reads_are_live_sums n h t nm c1 c2 :
  h !! t = Some (RateableTotality nm [c1; c2]) ->
  (mean (S n) h t = (m1 ← mean n h c1; m2 ← mean n h c2; Ok (m1 + m2)) /\
   beta_count (S n) h t
     = (b1 ← beta_count n h c1; b2 ← beta_count n h c2; Ok (b1 + b2)%Z) /\
   variance (S n) h t
     = (v1 ← variance n h c1; v2 ← variance n h c2; Ok (v1 + v2))) /\
  (forall k r e res h',
     update_mean_and_variance k r e h = (res, h') ->
     mean (S n) h' t = (m1 ← mean n h' c1; m2 ← mean n h' c2; Ok (m1 + m2)) /\
     beta_count (S n) h' t
       = (b1 ← beta_count n h' c1; b2 ← beta_count n h' c2; Ok (b1 + b2)%Z) /\
     variance (S n) h' t
       = (v1 ← variance n h' c1; v2 ← variance n h' c2; Ok (v1 + v2))).
Proof.
  intros Ht. split.
  - apply (totality_pair_reads n h t nm c1 c2 Ht).
  - intros k r e res h' Hu.
    apply (totality_pair_reads n h' t nm c1 c2).
    exact (update_mean_and_variance_keeps k r e h res h' Hu t nm [c1; c2] Ht).
Qed.

Lemma totality_reads_are_live_sums_witness :
  mean 2 heap_team team0 = Ok (25 + 25) /\
  beta_count 2 heap_team team0 = Ok (1 + 1)%Z /\
  variance 2 heap_team team0 = Ok (25 / 3 + 25 / 3).
Proof.
  exact (proj1 (totality_reads_are_live_sums 1 heap_team team0 "team" winner0 loser0
                  eq_refl)).
Defined.

(** ** The spread contribution of a composite rating *)

Lemma traverse_cons_inv {A B : Type} (f : A -> result B) (x : A) (l : list A) (ys : list B) :
  traverse f (x :: l) = Ok ys ->
  exists y ys', f x = Ok y /\ traverse f l = Ok ys' /\ ys = y :: ys'.
Proof.
  simpl. destruct (f x) as [y|]; simpl; [|discriminate].
  destruct (traverse f l) as [ys'|]; simpl; [|discriminate].
  intros [= <-]. exists y, ys'. auto.
Qed.

Section SpreadBounds.
Variables fv fs : ref -> result R.
Hypothesis bounded :
  forall c v s, fv c = Ok v -> fs c = Ok s -> 0 <= v /\ s <= v ^ 2.

Lemma traverse_bounds (rs : list ref) :
  forall vs ss,
    traverse fv rs = Ok vs -> traverse fs rs = Ok ss ->
    0 <= sum vs /\ sum ss <= sum vs ^ 2.
Proof.
  induction rs as [|c rs IH]; intros vs ss Hv Hs.
  - simpl in Hv, Hs. injection Hv as <-. injection Hs as <-.
    unfold sum; simpl. lra.
  - apply traverse_cons_inv in Hv as (v & vs' & Hv & Hvs & ->).
    apply traverse_cons_inv in Hs as (s & ss' & Hs & Hss & ->).
    destruct (bounded c v s Hv Hs) as [Hv0 Hsv].
    destruct (IH vs' ss' Hvs Hss) as [Hsum Hle].
    rewrite !sum_cons. split; [lra|]. simpl in *. nra.
Qed.

Lemma traverse_positive (rs : list ref) :
  forall vs ss i c v,
    traverse fv rs = Ok vs -> traverse fs rs = Ok ss ->
    rs !! i = Some c -> fv c = Ok v -> 0 < v ->
    0 < sum vs.
Proof.
  induction rs as [|c0 rs IH]; intros vs ss i c v Hv Hs Hi Hc Hpos.
  - destruct i; discriminate.
  - apply traverse_cons_inv in Hv as (v0' & vs' & Hv & Hvs & ->).
    apply traverse_cons_inv in Hs as (s0' & ss' & Hs & Hss & ->).
    destruct (bounded c0 v0' s0' Hv Hs) as [Hv0 _].
    destruct (traverse_bounds rs vs' ss' Hvs Hss) as [Hsum _].
    rewrite sum_cons. destruct i as [|i]; simpl in Hi.
    + injection Hi as ->. rewrite Hc in Hv. injection Hv as <-. lra.
    + pose proof (IH vs' ss' i c v Hvs Hss Hi Hc Hpos). lra.
Qed.

Lemma traverse_strict (rs : list ref) :
  forall vs ss i j ci cj vi vj,
    traverse fv rs = Ok vs -> traverse fs rs = Ok ss ->
    (i < j)%nat ->
    rs !! i = Some ci -> fv ci = Ok vi -> 0 < vi ->
    rs !! j = Some cj -> fv cj = Ok vj -> 0 < vj ->
    sum ss < sum vs ^ 2.
Proof.
  induction rs as [|c0 rs IH]; intros vs ss i j ci cj vi vj Hv Hs Hij Hi Hci Hpi Hj Hcj Hpj.
  - destruct i; discriminate.
  - apply traverse_cons_inv in Hv as (v0' & vs' & Hv & Hvs & ->).
    apply traverse_cons_inv in Hs as (s0' & ss' & Hs & Hss & ->).
    destruct (bounded c0 v0' s0' Hv Hs) as [Hv0 Hsv].
    destruct (traverse_bounds rs vs' ss' Hvs Hss) as [Hsum Hle].
    rewrite !sum_cons.
    destruct j as [|j]; [lia|]. simpl in Hj.
    destruct i as [|i]; simpl in Hi.
    + injection Hi as ->. rewrite Hci in Hv. injection Hv as <-.
      pose proof (traverse_positive rs vs' ss' j cj vj Hvs Hss Hj Hcj Hpj).
      simpl in *. nra.
    + assert (Hij' : (i < j)%nat) by lia.
      pose proof (IH vs' ss' i j ci cj vi vj Hvs Hss Hij' Hi Hci Hpi Hj Hcj Hpj).
      simpl in *. nra.
Qed.
End SpreadBounds.

(** Under the invariant, every rating's spread contribution is at most the
    square of its variance, and its variance is not negative. *)
Lemma sigma_le_variance_sqr h :
  variance_nonneg h ->
  forall n r v s,
    variance n h r = Ok v -> sigma_variance_for_std_dev n h r = Ok s ->
    0 <= v /\ s <= v ^ 2.
Proof.
  intros Hinv. induction n as [|n IH]; intros r v s Hv Hs; [discriminate|].
  simpl in Hv, Hs. specialize (Hinv r).
  destruct (h !! r) as [[m0 s0|b0 s0 m0|nm rs]|]; [| | |discriminate].
  - injection Hv as <-. injection Hs as <-. split; [exact Hinv|lra].
  - injection Hv as <-. injection Hs as <-. split; [exact Hinv|lra].
  - destruct (traverse (variance n h) rs) as [vs|] eqn:Hvs; simpl in Hv; [|discriminate].
    destruct (traverse (sigma_variance_for_std_dev n h) rs) as [ss|] eqn:Hss;
      simpl in Hs; [|discriminate].
    injection Hv as <-. injection Hs as <-.
    exact (traverse_bounds _ _ IH rs vs ss Hvs Hss).
Qed.

(** C9: a non-composite rating's [sigma_variance_for_std_dev()] is its
    [variance ** 2]; a [RateableTotality]'s is the sum of its children's
    [sigma_variance_for_std_dev()].  Consequently, when the stored variances
    are not negative and two of the children (at different positions) have a
    positive variance, the composite's [sigma_variance_for_std_dev()] is
    strictly below, hence different from, the square of its own derived
    [variance]. *)
Theorem sigma_variance_for_std_dev_composite n h t nm rs :
  h !! t = Some (RateableTotality nm rs) ->
  (forall r m v, h !! r = Some (SkillBasedRating m v) ->
     sigma_variance_for_std_dev (S n) h r = Ok (v ^ 2)) /\
  (forall r b v m, h !! r = Some (ConstantRating b v m) ->
     sigma_variance_for_std_dev (S n) h r = Ok (v ^ 2)) /\
  sigma_variance_for_std_dev (S n) h t
    = (ss ← traverse (sigma_variance_for_std_dev n h) rs; Ok (sum ss)) /\
  (variance_nonneg h ->
   forall (i j : nat) (ci cj : ref) (vi vj V Sg : R),
     i <> j ->
     rs !! i = Some ci -> variance n h ci = Ok vi -> 0 < vi ->
     rs !! j = Some cj -> variance n h cj = Ok vj -> 0 < vj ->
     variance (S n) h t = Ok V ->
     sigma_variance_for_std_dev (S n) h t = Ok Sg ->
     Sg < V ^ 2 /\ Sg <> V ^ 2).
Proof.
  intros Ht. split; [|split; [|split]].
  - intros r m v Hr. simpl. rewrite Hr. reflexivity.
  - intros r b v m Hr. simpl. rewrite Hr. reflexivity.
  - simpl. rewrite Ht. reflexivity.
  - intros Hinv i j ci cj vi vj V Sg Hij Hi Hci Hpi Hj Hcj Hpj HV HS.
    simpl in HV, HS. rewrite Ht in HV, HS.
    destruct (traverse (variance n h) rs) as [vs|] eqn:Hvs; simpl in HV; [|discriminate].
    destruct (traverse (sigma_variance_for_std_dev n h) rs) as [ss|] eqn:Hss;
      simpl in HS; [|discriminate].
    injection HV as <-. injection HS as <-.
    assert (Hlt : sum ss < sum vs ^ 2).
    { destruct (Nat.lt_total i j) as [Hlt|[Heq|Hgt]]; [|contradiction|].
      - exact (traverse_strict _ _ (sigma_le_variance_sqr h Hinv n) rs vs ss
                 i j ci cj vi vj Hvs Hss Hlt Hi Hci Hpi Hj Hcj Hpj).
      - exact (traverse_strict _ _ (sigma_le_variance_sqr h Hinv n) rs vs ss
                 j i cj ci vj vi Hvs Hss Hgt Hj Hcj Hpj Hi Hci Hpi). }
    split; lra.
Qed.

Lemma variance_nonneg_empty : variance_nonneg ∅.
Proof. intros r. rewrite lookup_empty. exact I. Qed.

Lemma variance_nonneg_insert h r (o : Rating) :
  match o with
  | SkillBasedRating _ v => 0 <= v
  | ConstantRating _ v _ => 0 <= v
  | RateableTotality _ _ => True
  end ->
  variance_nonneg h -> variance_nonneg (<[r := o]> h).
Proof.
  intros Ho Hh r'. destruct (decide (r = r')) as [->|Hne].
  - rewrite lookup_insert_eq. destruct o; exact Ho.
  - rewrite lookup_insert_ne by exact Hne. apply Hh.
Qed.

Lemma heap_team_variance_nonneg : variance_nonneg heap_team.
Proof.
  unfold heap_team, heap0, duel.
  repeat (apply variance_nonneg_insert; [simpl; try lra; exact I|]).
  apply variance_nonneg_empty.
Qed.

Lemma sigma_variance_for_std_dev_composite_witness :
  sigma_variance_for_std_dev 2 heap_team team0 = Ok (sum [(25 / 3) ^ 2; (25 / 3) ^ 2]) /\
  variance 2 heap_team team0 = Ok (sum [25 / 3; 25 / 3]) /\
  sum [(25 / 3) ^ 2; (25 / 3) ^ 2] <> sum [25 / 3; 25 / 3] ^ 2.
Proof.
  destruct (sigma_variance_for_std_dev_composite 1 heap_team team0 "team"
              [winner0; loser0] eq_refl) as (_ & _ & _ & Hne).
  assert (Hp : 0 < 25 / 3) by lra.
  refine (conj eq_refl (conj eq_refl _)).
  exact (proj2 (Hne heap_team_variance_nonneg 0%nat 1%nat winner0 loser0
                  (25 / 3) (25 / 3) _ _
                  (fun H : 0%nat = 1%nat => O_S 0 H)
                  eq_refl eq_refl Hp eq_refl eq_refl Hp eq_refl eq_refl)).
Defined.

(** ** The default scenario *)

Lemma update_mean_and_variance_skill n h r e m v m' v' :
  h !! r = Some (SkillBasedRating m v) ->
  standard_mean_update n h r e None = Ok m' ->
  standard_variance_update n (<[r := SkillBasedRating m' v]> h) r e = Ok v' ->
  update_mean_and_variance (S (S n)) r e h
    = (Ok tt, <[r := SkillBasedRating m' v']> (<[r := SkillBasedRating m' v]> h)).
Proof.
  intros Hr Hm Hv. unfold update_mean_and_variance.
  rewrite (update_mean_skill n h r e None m v m' Hr Hm).
  apply (update_variance_skill n _ r e m' v v'); [apply lookup_insert_eq | exact Hv].
Qed.

Lemma event0_c_pos : 0 < std_dev_of_performances event0.
Proof. apply duel_event_c_pos. lra. Qed.

Lemma gain0_pos : 0 < gain0.
Proof.
  unfold gain0, event0. rewrite duel_event_v. fold event0.
  apply Rmult_lt_0_compat; [apply v0_pos|].
  apply Rdiv_lt_0_compat; [|apply event0_c_pos].
  unfold tau; simpl. lra.
Qed.

Lemma radicand0_bounds : 0 <= radicand0 < (25 / 3) ^ 2.
Proof.
  unfold radicand0, event0.
  rewrite duel_event_w, duel_event_c_sqr by lra.
  simpl weight. simpl parameters. unfold tau, params0.
  simpl constant_additional_variance. simpl static_performance_spread.
  rewrite Rabs_R1.
  replace (((25 / 3) ^ 2 + (25 / 300) ^ 2)
           / (2 * (25 / 6) ^ 2 + (25 / 3) ^ 2 + (25 / 3) ^ 2))
    with (10001 / 25000) by (field; lra).
  pose proof v0_sqr_bounds. split; nra.
Qed.

Lemma sqrt_radicand0_lt : sqrt radicand0 < 25 / 3.
Proof.
  rewrite <- (sqrt_pow2 (25 / 3)) by lra.
  apply sqrt_lt_1_alt, radicand0_bounds.
Qed.

Lemma standard_mean_update_winner0 n :
  standard_mean_update (S n) heap0 winner0 event0 None
    = Ok (25 + weight event0 * IZR 1 * gain0).
Proof.
  rewrite standard_mean_update_none.
  replace (direction_of_weight (S n) heap0 event0 winner0) with (Ok 1%Z : result Z)
    by (symmetry; exact (direction_of_weight_winner n heap0 event0)).
  simpl mbind.
  apply (standard_mean_update_some (S n) heap0 winner0 event0 1 25 (25 / 3));
    [reflexivity | reflexivity | apply Rgt_not_eq, event0_c_pos].
Qed.

Lemma standard_variance_update_event0 n h r m :
  h !! r = Some (SkillBasedRating m (25 / 3)) ->
  standard_variance_update (S n) h r event0 = Ok (sqrt radicand0).
Proof.
  intros Hr.
  rewrite (standard_variance_update_unfold (S n) h r event0 (25 / 3)
             (variance_skill h r n m (25 / 3) Hr)
             (Rgt_not_eq _ _ event0_c_pos)).
  apply math_sqrt_ok, radicand0_bounds.
Qed.

Lemma standard_mean_update_loser0 n :
  standard_mean_update (S n) heap1 loser0 event0 None
    = Ok (25 + weight event0 * IZR (-1) * gain0).
Proof.
  rewrite standard_mean_update_none. unfold direction_of_weight.
  rewrite (rating_eq_skill n heap1 loser0 (winner event0)
             25 (25 / 3) (25 + weight event0 * IZR 1 * gain0) (sqrt radicand0));
    [| discriminate | reflexivity | reflexivity].
  rewrite (float_eq_false 25) by (pose proof gain0_pos; simpl weight; lra).
  simpl mbind.
  apply (standard_mean_update_some (S n) heap1 loser0 event0 (-1) 25 (25 / 3));
    [reflexivity | reflexivity | apply Rgt_not_eq, event0_c_pos].
Qed.

Lemma update_winner0 n :
  update_mean_and_variance (S (S (S n))) winner0 event0 heap0 = (Ok tt, heap1).
Proof.
  apply (update_mean_and_variance_skill (S n) heap0 winner0 event0 25 (25 / 3)).
  - reflexivity.
  - apply standard_mean_update_winner0.
  - eapply standard_variance_update_event0. apply lookup_insert_eq.
Qed.

Lemma update_loser0 n :
  update_mean_and_variance (S (S (S n))) loser0 event0 heap1 = (Ok tt, heap2).
Proof.
  apply (update_mean_and_variance_skill (S n) heap1 loser0 event0 25 (25 / 3)).
  - reflexivity.
  - apply standard_mean_update_loser0.
  - eapply standard_variance_update_event0. apply lookup_insert_eq.
Qed.

(** The default scenario in the order winner, then loser: with
    [Parameters(beta=25/6, tau=25/300)], a winner and a loser that are both
    [SkillBasedRating(mean=25, variance=25/3)] and
    [Event(weight=1.0, winner, loser, parameters)], the event has
    [delta = 0], [z_factor = 0] and a [mean_scale] within 0.00005 of 0.7979;
    after [update_mean_and_variance(event)] on the winner and then on the
    loser, the winner's mean is above 25, the loser's mean is below 25 and
    both variances are below 25/3.  The loser moves down only because the
    winner, already updated, no longer compares equal to it. *)
Theorem default_scenario (n : nat) :
  exists (e : Event) (h1 h2 : heap) (mw vw ml vl : R),
    new_Event 1 heap0 1 winner0 loser0 params0 "first" = Ok e /\
    delta e = 0 /\ z_factor e = 0 /\
    Rabs (mean_scale e - 0.7979) < 0.00005 /\
    update_mean_and_variance (S (S (S n))) winner0 e heap0 = (Ok tt, h1) /\
    update_mean_and_variance (S (S (S n))) loser0 e h1 = (Ok tt, h2) /\
    h2 !! winner0 = Some (SkillBasedRating mw vw) /\
    h2 !! loser0 = Some (SkillBasedRating ml vl) /\
    25 < mw /\ ml < 25 /\ vw < 25 / 3 /\ vl < 25 / 3.
Proof.
  exists event0, heap1, heap2.
  exists (25 + weight event0 * IZR 1 * gain0), (sqrt radicand0).
  exists (25 + weight event0 * IZR (-1) * gain0), (sqrt radicand0).
  pose proof gain0_pos as Hg. pose proof sqrt_radicand0_lt as Hs.
  pose proof v0_bounds as Hv.
  split; [apply new_Event_duel; lra|].
  split; [simpl; lra|].
  split; [apply duel_event_z|].
  split; [unfold event0; rewrite duel_event_v; apply Rabs_def1; lra|].
  split; [apply update_winner0|].
  split; [apply update_loser0|].
  split; [reflexivity|].
  split; [reflexivity|].
  simpl weight. repeat split; lra.
Qed.

(** The order of the two updates matters: when the loser is updated first,
    it still compares equal to the stored winner, and its mean rises. *)
Lemma loser_updated_first (n : nat) :
  exists (h1 : heap) (ml vl : R),
    update_mean_and_variance (S (S (S n))) loser0 event0 heap0 = (Ok tt, h1) /\
    h1 !! loser0 = Some (SkillBasedRating ml vl) /\ 25 < ml.
Proof.
  exists (<[loser0 := SkillBasedRating (25 + weight event0 * IZR 1 * gain0) (sqrt radicand0)]>
            (<[loser0 := SkillBasedRating (25 + weight event0 * IZR 1 * gain0) (25 / 3)]>
               heap0)).
  exists (25 + weight event0 * IZR 1 * gain0), (sqrt radicand0).
  split; [|split].
  - apply (update_mean_and_variance_skill (S n) heap0 loser0 event0 25 (25 / 3)).
    + reflexivity.
    + rewrite standard_mean_update_none. unfold direction_of_weight.
      rewrite (rating_eq_skill n heap0 loser0 (winner event0) 25 (25 / 3) 25 (25 / 3));
        [| discriminate | reflexivity | reflexivity].
      rewrite !float_eq_refl. simpl mbind.
      apply (standard_mean_update_some (S n) heap0 loser0 event0 1 25 (25 / 3));
        [reflexivity | reflexivity | apply Rgt_not_eq, event0_c_pos].
    + eapply standard_variance_update_event0. apply lookup_insert_eq.
  - apply lookup_insert_eq.
  - pose proof gain0_pos. simpl weight. lra.
Qed.

Lemma update_loser_first n :
  update_mean_and_variance (S (S (S n))) loser0 event0 heap0
    = (Ok tt, heap1_loser_first).
Proof.
  apply (update_mean_and_variance_skill (S n) heap0 loser0 event0 25 (25 / 3)).
  - reflexivity.
  - rewrite standard_mean_update_none. unfold direction_of_weight.
    rewrite (rating_eq_skill n heap0 loser0 (winner event0) 25 (25 / 3) 25 (25 / 3));
      [| discriminate | reflexivity | reflexivity].
    rewrite !float_eq_refl. simpl mbind.
    apply (standard_mean_update_some (S n) heap0 loser0 event0 1 25 (25 / 3));
      [reflexivity | reflexivity | apply Rgt_not_eq, event0_c_pos].
  - eapply standard_variance_update_event0. apply lookup_insert_eq.
Qed.

Lemma update_winner_second n :
  update_mean_and_variance (S (S (S n))) winner0 event0 heap1_loser_first
    = (Ok tt, heap2_loser_first).
Proof.
  apply (update_mean_and_variance_skill (S n) heap1_loser_first winner0 event0
           25 (25 / 3)).
  - reflexivity.
  - rewrite standard_mean_update_none.
    replace (direction_of_weight (S n) heap1_loser_first event0 winner0)
      with (Ok 1%Z : result Z)
      by (symmetry; exact (direction_of_weight_winner n heap1_loser_first event0)).
    simpl mbind.
    apply (standard_mean_update_some (S n) heap1_loser_first winner0 event0 1
             25 (25 / 3));
      [reflexivity | reflexivity | apply Rgt_not_eq, event0_c_pos].
  - eapply standard_variance_update_event0. apply lookup_insert_eq.
Qed.

(** C2, evaluated on the code: in the scenario of
    [Parameters(beta=25/6, tau=25/300)], a winner and a loser that are both
    [SkillBasedRating(mean=25, variance=25/3)] and
    [Event(weight=1.0, winner, loser, parameters)], the event has
    [delta = 0], [z_factor = 0] and a [mean_scale] within 0.00005 of 0.7979,
    and both variances end below 25/3; but when
    [update_mean_and_variance(event)] is called on the loser before the
    winner, the loser still compares equal to the stored winner, gets the
    direction [+1], and its mean ends above 25, not below, with the winner's
    mean above 25 as well. *)
Theorem default_scenario_loser_first (n : nat) :
  exists (e : Event) (h1 h2 : heap) (mw vw ml vl : R),
    new_Event 1 heap0 1 winner0 loser0 params0 "first" = Ok e /\
    delta e = 0 /\ z_factor e = 0 /\
    Rabs (mean_scale e - 0.7979) < 0.00005 /\
    update_mean_and_variance (S (S (S n))) loser0 e heap0 = (Ok tt, h1) /\
    update_mean_and_variance (S (S (S n))) winner0 e h1 = (Ok tt, h2) /\
    h2 !! winner0 = Some (SkillBasedRating mw vw) /\
    h2 !! loser0 = Some (SkillBasedRating ml vl) /\
    25 < mw /\ 25 < ml /\ ~ ml < 25 /\ vw < 25 / 3 /\ vl < 25 / 3.
Proof.
  exists event0, heap1_loser_first, heap2_loser_first.
  exists (25 + weight event0 * IZR 1 * gain0), (sqrt radicand0).
  exists (25 + weight event0 * IZR 1 * gain0), (sqrt radicand0).
  pose proof gain0_pos as Hg. pose proof sqrt_radicand0_lt as Hs.
  pose proof v0_bounds as Hv.
  split; [apply new_Event_duel; lra|].
  split; [simpl; lra|].
  split; [apply duel_event_z|].
  split; [unfold event0; rewrite duel_event_v; apply Rabs_def1; lra|].
  split; [apply update_loser_first|].
  split; [apply update_winner_second|].
  split; [reflexivity|].
  split; [reflexivity|].
  simpl weight. repeat split; lra.
Qed.

(** * Further properties *)

(** ** The dispatched reads, uniformly *)

Lemma mean_read n h r : mean n h r = read leaf_mean sum n h r.
Proof.
  revert r. induction n as [|n IH]; intros r; [reflexivity|]. simpl.
  destruct (h !! r) as [[| |nm rs]|]; try reflexivity.
  assert (E : traverse (mean n h) rs = traverse (read leaf_mean sum n h) rs)
    by (induction rs as [|c rs IHrs]; simpl; [reflexivity | rewrite IH, IHrs; reflexivity]).
  rewrite E. reflexivity.
Qed.

Lemma variance_read n h r : variance n h r = read leaf_variance sum n h r.
Proof.
  revert r. induction n as [|n IH]; intros r; [reflexivity|]. simpl.
  destruct (h !! r) as [[| |nm rs]|]; try reflexivity.
  assert (E : traverse (variance n h) rs = traverse (read leaf_variance sum n h) rs)
    by (induction rs as [|c rs IHrs]; simpl; [reflexivity | rewrite IH, IHrs; reflexivity]).
  rewrite E. reflexivity.
Qed.

Lemma beta_count_read n h r : beta_count n h r = read leaf_beta_count sumZ n h r.
Proof.
  revert r. induction n as [|n IH]; intros r; [reflexivity|]. simpl.
  destruct (h !! r) as [[| |nm rs]|]; try reflexivity.
  assert (E : traverse (beta_count n h) rs
              = traverse (read leaf_beta_count sumZ n h) rs)
    by (induction rs as [|c rs IHrs]; simpl; [reflexivity | rewrite IH, IHrs; reflexivity]).
  rewrite E. reflexivity.
Qed.

Lemma sigma_read n h r :
  sigma_variance_for_std_dev n h r = read leaf_sigma sum n h r.
Proof.
  revert r. induction n as [|n IH]; intros r; [reflexivity|]. simpl.
  destruct (h !! r) as [[| |nm rs]|]; try reflexivity.
  assert (E : traverse (sigma_variance_for_std_dev n h) rs
              = traverse (read leaf_sigma sum n h) rs)
    by (induction rs as [|c rs IHrs]; simpl; [reflexivity | rewrite IH, IHrs; reflexivity]).
  rewrite E. reflexivity.
Qed.

Lemma traverse_ext {A B : Type} (f g : A -> result B) (l : list A) :
  (forall x, In x l -> f x = g x) -> traverse f l = traverse g l.
Proof.
  induction l as [|x l IH]; intros H; simpl; [reflexivity|].
  rewrite (H x) by (left; reflexivity).
  rewrite IH by (intros y Hy; apply H; right; exact Hy). reflexivity.
Qed.

Lemma traverse_raise {A B : Type} (f : A -> result B) (l : list A) (x : exn) :
  traverse f l = Raise x -> exists a, In a l /\ f a = Raise x.
Proof.
  induction l as [|a l IH]; simpl; [discriminate|].
  destruct (f a) as [y|x'] eqn:Ha; simpl.
  - destruct (traverse f l) as [ys|x'']; simpl; [discriminate|].
    intros [= ->]. destruct (IH eq_refl) as (b & Hb & Hfb). exists b. auto.
  - intros [= ->]. exists a. auto.
Qed.

Lemma traverse_ok_in {A B : Type} (f : A -> result B) (l : list A) (ys : list B) :
  traverse f l = Ok ys -> forall a, In a l -> exists y, f a = Ok y /\ In y ys.
Proof.
  revert ys. induction l as [|x l IH]; intros ys H a Ha; [destruct Ha|].
  apply traverse_cons_inv in H as (y & ys' & Hx & Hl & ->).
  destruct Ha as [<-|Ha].
  - exists y. split; [exact Hx | left; reflexivity].
  - destruct (IH ys' Hl a Ha) as (y' & Hy' & Hin). exists y'. split; [exact Hy' | right; exact Hin].
Qed.

Lemma traverse_ok_all {A B : Type} (f : A -> result B) (l : list A) (ys : list B) :
  traverse f l = Ok ys -> forall y, In y ys -> exists a, In a l /\ f a = Ok y.
Proof.
  revert ys. induction l as [|x l IH]; intros ys H y Hy.
  - simpl in H. injection H as <-. destruct Hy.
  - apply traverse_cons_inv in H as (y0 & ys' & Hx & Hl & ->).
    destruct Hy as [<-|Hy].
    + exists x. split; [left; reflexivity | exact Hx].
    + destruct (IH ys' Hl y Hy) as (a & Ha & Hfa). exists a. split; [right; exact Ha | exact Hfa].
Qed.

Section Reads.
Context {A : Type} (leaf : Rating -> A) (combine : list A -> A).

(** A read raises nothing but [RecursionError] and [DanglingReference]. *)
Lemma read_raises n h r x :
  read leaf combine n h r = Raise x -> x = RecursionError \/ x = DanglingReference.
Proof.
  revert r. induction n as [|n IH]; intros r; simpl; [intros [= <-]; auto|].
  destruct (h !! r) as [[| |nm rs]|]; try discriminate; [|intros [= <-]; auto].
  destruct (traverse (read leaf combine n h) rs) as [xs|x'] eqn:Ht; simpl; [discriminate|].
  intros [= ->]. apply traverse_raise in Ht as (a & _ & Ha). exact (IH a Ha).
Qed.

(** A property of the leaves that [combine] keeps holds of every read. *)
Lemma read_invariant (P : A -> Prop) h :
  (forall r o, h !! r = Some o -> P (leaf o)) ->
  (forall xs, (forall x, In x xs -> P x) -> P (combine xs)) ->
  forall n r a, read leaf combine n h r = Ok a -> P a.
Proof.
  intros Hleaf Hcomb. induction n as [|n IH]; intros r a; simpl; [discriminate|].
  destruct (h !! r) as [[m v|s v m|nm rs]|] eqn:Hr; try discriminate.
  - intros [= <-]. exact (Hleaf r _ Hr).
  - intros [= <-]. exact (Hleaf r _ Hr).
  - destruct (traverse (read leaf combine n h) rs) as [xs|] eqn:Ht; simpl; [|discriminate].
    intros [= <-]. apply Hcomb. intros x Hx.
    destruct (traverse_ok_all _ _ _ Ht x Hx) as (c & _ & Hc). exact (IH c x Hc).
Qed.

(** Stores that agree on [leaf] and on the children give the same reads. *)
Lemma read_same_leaf h h' :
  pointwise (same_leaf leaf) h h' ->
  forall n r, read leaf combine n h r = read leaf combine n h' r.
Proof.
  intros Hp. induction n as [|n IH]; intros r; [reflexivity|]. simpl.
  destruct (Hp r) as [o o' Ho|]; [|reflexivity].
  destruct o as [m v|s v m|nm rs], o' as [m' v'|s' v' m'|nm' rs'];
    simpl in Ho; try contradiction; try (rewrite Ho; reflexivity).
  subst rs'. rewrite (traverse_ext _ (read leaf combine n h') rs); [reflexivity|].
  intros c _. apply IH.
Qed.
End Reads.

(** ** Events, once constructed *)

Lemma new_Event_inv n h w win los p nm e :
  new_Event n h w win los p nm = Ok e ->
  exists d c z v,
    _delta n h win los = Ok d /\
    _std_dev_of_performances n h win los p = Ok c /\
    float_div d c = Ok z /\ float_div (pdf z) (cdf z) = Ok v /\
    e = {| weight := w; winner := win; loser := los; parameters := p; name := nm;
           delta := d; std_dev_of_performances := c; z_factor := z;
           mean_scale := v; variance_scale := _variance_scale v z |}.
Proof.
  unfold new_Event, _z_factor, _mean_scale.
  destruct (_delta n h win los) as [d|]; simpl; [|discriminate].
  destruct (_std_dev_of_performances n h win los p) as [c|]; simpl; [|discriminate].
  destruct (float_div d c) as [z|] eqn:Hz; simpl; [|discriminate].
  destruct (float_div (pdf z) (cdf z)) as [v|] eqn:Hv; simpl; [|discriminate].
  intros [= <-]. exists d, c, z, v. repeat split; assumption.
Qed.

Lemma float_div_inv x y q : float_div x y = Ok q -> y <> 0 /\ q = x / y.
Proof.
  unfold float_div. destruct (Req_dec_T y 0); [discriminate|].
  intros [= <-]. auto.
Qed.

Lemma math_sqrt_inv x y : math_sqrt x = Ok y -> 0 <= x /\ y = sqrt x.
Proof.
  unfold math_sqrt. destruct (Rlt_dec x 0); [discriminate|].
  intros [= <-]. split; [lra | reflexivity].
Qed.

Lemma std_dev_inv n h win los p c :
  _std_dev_of_performances n h win los p = Ok c ->
  exists bw bl sw sl,
    beta_count n h win = Ok bw /\ beta_count n h los = Ok bl /\
    sigma_variance_for_std_dev n h win = Ok sw /\
    sigma_variance_for_std_dev n h los = Ok sl /\
    0 <= IZR (bw + bl) * static_performance_spread p ^ 2 + sw + sl /\
    c = sqrt (IZR (bw + bl) * static_performance_spread p ^ 2 + sw + sl).
Proof.
  unfold _std_dev_of_performances.
  destruct (beta_count n h win) as [bw|]; simpl; [|discriminate].
  destruct (beta_count n h los) as [bl|]; simpl; [|discriminate].
  destruct (sigma_variance_for_std_dev n h win) as [sw|]; simpl; [|discriminate].
  destruct (sigma_variance_for_std_dev n h los) as [sl|]; simpl; [|discriminate].
  intros H. apply math_sqrt_inv in H as [H0 ->].
  exists bw, bl, sw, sl. repeat split; try reflexivity. exact H0.
Qed.

(** *** Exceptions of the constructor *)

Lemma sumZ_nonneg (l : list Z) : (forall x, In x l -> (0 <= x)%Z) -> (0 <= sumZ l)%Z.
Proof.
  unfold sumZ. assert (G : forall (l : list Z) (a : Z),
    (0 <= a)%Z -> (forall x, In x l -> (0 <= x)%Z) -> (0 <= fold_left Z.add l a)%Z).
  { clear. induction l as [|y l IH]; intros a Ha H; simpl; [exact Ha|].
    apply IH; [|intros x Hx; apply H; right; exact Hx].
    specialize (H y (or_introl eq_refl)). lia. }
  apply G. lia.
Qed.

Lemma sum_nonneg (l : list R) : (forall x, In x l -> 0 <= x) -> 0 <= sum l.
Proof.
  induction l as [|y l IH]; intros H; [unfold sum; simpl; lra|].
  rewrite sum_cons. specialize (H y (or_introl eq_refl)) as Hy.
  assert (0 <= sum l) by (apply IH; intros x Hx; apply H; right; exact Hx). lra.
Qed.

Lemma beta_count_nonneg n h r b : beta_count n h r = Ok b -> (0 <= b)%Z.
Proof.
  rewrite beta_count_read.
  apply (read_invariant leaf_beta_count sumZ (fun b => (0 <= b)%Z) h).
  - intros r' [| |] _; simpl; lia.
  - apply sumZ_nonneg.
Qed.

Lemma sigma_nonneg n h r s : sigma_variance_for_std_dev n h r = Ok s -> 0 <= s.
Proof.
  rewrite sigma_read.
  apply (read_invariant leaf_sigma sum (fun s => 0 <= s) h).
  - intros r' o _. unfold leaf_sigma. apply pow2_ge_0.
  - apply sum_nonneg.
Qed.

Lemma spread_radicand_nonneg n h win los p bw bl sw sl :
  beta_count n h win = Ok bw -> beta_count n h los = Ok bl ->
  sigma_variance_for_std_dev n h win = Ok sw ->
  sigma_variance_for_std_dev n h los = Ok sl ->
  0 <= IZR (bw + bl) * static_performance_spread p ^ 2 + sw + sl.
Proof.
  intros Hbw Hbl Hsw Hsl.
  apply beta_count_nonneg in Hbw, Hbl. apply sigma_nonneg in Hsw, Hsl.
  assert (0 <= IZR (bw + bl)) by (apply IZR_le; lia).
  pose proof (pow2_ge_0 (static_performance_spread p)). nra.
Qed.

Lemma bind_raise {A B : Type} (m : result A) (k : A -> result B) (x : exn) :
  m ≫= k = Raise x -> m = Raise x \/ exists a, m = Ok a /\ k a = Raise x.
Proof.
  destruct m as [a|x']; simpl; intros H; [right; exists a; auto|].
  left. injection H as ->. reflexivity.
Qed.

(** The constructor never raises [ValueError]: the radicand of the
    performance spread is a sum of squares and of a non-negative multiple of
    [beta^2]; whatever the store, the ratings and the parameters, a failing
    construction raises [ZeroDivisionError], [RecursionError] or the
    model's [DanglingReference]. *)
Theorem new_Event_never_ValueError n h w win los p nm :
  new_Event n h w win los p nm <> Raise ValueError.
Proof.
  unfold new_Event. intros H.
  apply bind_raise in H as [H|(d & _ & H)].
  { unfold _delta in H. rewrite !mean_read in H.
    apply bind_raise in H as [H|(mw & _ & H)];
      [apply read_raises in H as [|]; discriminate|].
    apply bind_raise in H as [H|(ml & _ & H)];
      [apply read_raises in H as [|]; discriminate | discriminate]. }
  apply bind_raise in H as [H|(c & _ & H)].
  { unfold _std_dev_of_performances in H.
    destruct (beta_count n h win) as [bw|x] eqn:Hbw; simpl in H;
      [|rewrite beta_count_read in Hbw; injection H as ->;
        apply read_raises in Hbw as [|]; discriminate].
    destruct (beta_count n h los) as [bl|x] eqn:Hbl; simpl in H;
      [|rewrite beta_count_read in Hbl; injection H as ->;
        apply read_raises in Hbl as [|]; discriminate].
    destruct (sigma_variance_for_std_dev n h win) as [sw|x] eqn:Hsw; simpl in H;
      [|rewrite sigma_read in Hsw; injection H as ->;
        apply read_raises in Hsw as [|]; discriminate].
    destruct (sigma_variance_for_std_dev n h los) as [sl|x] eqn:Hsl; simpl in H;
      [|rewrite sigma_read in Hsl; injection H as ->;
        apply read_raises in Hsl as [|]; discriminate].
    rewrite math_sqrt_ok in H; [discriminate|].
    exact (spread_radicand_nonneg n h win los p bw bl sw sl Hbw Hbl Hsw Hsl). }
  apply bind_raise in H as [H|(z & _ & H)].
  { unfold _z_factor, float_div in H. destruct (Req_dec_T c 0); discriminate. }
  apply bind_raise in H as [H|(v & _ & H)]; [|discriminate].
  unfold _mean_scale, float_div in H. destruct (Req_dec_T (cdf z) 0); discriminate.
Qed.

(** *** The spread of a constructed event *)

Lemma list_eq_raises (f : ref -> ref -> result bool) (l l' : list ref) (x : exn) :
  list_eq f l l' = Raise x -> exists a b, f a b = Raise x.
Proof.
  revert l'. induction l as [|a l IH]; intros [|b l']; simpl; try discriminate.
  destruct (f a b) as [[]|y] eqn:Hab; simpl.
  - apply IH.
  - discriminate.
  - intros [= ->]. exists a, b. exact Hab.
Qed.

Lemma rating_eq_raises k h :
  forall a b x,
    rating_eq k h a b = Raise x -> x = RecursionError \/ x = DanglingReference.
Proof.
  induction k as [|k IH]; intros a b x; simpl; [intros [= <-]; auto|].
  destruct (Pos.eqb a b); [discriminate|].
  destruct (h !! a) as [[m v|s v m|nm rs]|], (h !! b) as [[m' v'|s' v' m'|nm' rs']|];
    try discriminate; try (intros [= <-]; auto).
  destruct (String.eqb nm nm'); [|discriminate].
  destruct (Nat.eqb (length rs) (length rs')); [|discriminate].
  intros H. apply list_eq_raises in H as (c & c' & Hc). exact (IH c c' x Hc).
Qed.

Lemma direction_of_weight_raises k h e r x :
  direction_of_weight k h e r = Raise x ->
  x = RecursionError \/ x = DanglingReference.
Proof.
  unfold direction_of_weight.
  destruct (rating_eq k h r (winner e)) as [b|y] eqn:Hb; simpl; [discriminate|].
  intros [= ->]. exact (rating_eq_raises k h r (winner e) x Hb).
Qed.

(** Every event the constructor returns has a strictly positive
    [std_dev_of_performances]: a zero spread would have raised in the
    z-factor.  So the division in [standard_mean_update] by the spread of a
    constructed event never raises [ZeroDivisionError], for any rating, in
    any store and with any direction. *)
Theorem new_Event_positive_spread n h w win los p nm e :
  new_Event n h w win los p nm = Ok e ->
  0 < std_dev_of_performances e /\
  (forall k h' r wl,
     standard_mean_update k h' r e wl <> Raise ZeroDivisionError).
Proof.
  intros H. apply new_Event_inv in H as (d & c & z & v & _ & Hc & Hz & _ & ->).
  apply std_dev_inv in Hc as (bw & bl & sw & sl & _ & _ & _ & _ & Hrad & ->).
  apply float_div_inv in Hz as [Hc0 _].
  pose proof (sqrt_pos (IZR (bw + bl) * static_performance_spread p ^ 2 + sw + sl)) as Hs.
  split.
  - simpl std_dev_of_performances.
    destruct Hs as [Hs|Hs]; [exact Hs | exfalso; apply Hc0; symmetry; exact Hs].
  - intros k h' r wl H. unfold standard_mean_update in H.
    apply bind_raise in H as [H|(d0 & _ & H)].
    { destruct wl as [d0|]; [discriminate|].
      apply direction_of_weight_raises in H as [|]; discriminate. }
    apply bind_raise in H as [H|(m & _ & H)].
    { rewrite mean_read in H. apply read_raises in H as [|]; discriminate. }
    apply bind_raise in H as [H|(s & _ & H)].
    { rewrite variance_read in H. apply read_raises in H as [|]; discriminate. }
    apply bind_raise in H as [H|(q & _ & H)]; [|discriminate].
    simpl std_dev_of_performances in H.
    rewrite float_div_ok in H by exact Hc0. discriminate.
Qed.

Lemma new_Event_positive_spread_witness :
  0 < std_dev_of_performances event0 /\
  standard_mean_update 1 heap0 loser0 event0 None <> Raise ZeroDivisionError.
Proof.
  destruct (new_Event_positive_spread 1 heap0 1 winner0 loser0 params0 "first" event0
              (new_Event_duel 1 params0 25 (25 / 3) "first" ltac:(lra)))
    as (Hc & Hz).
  exact (conj Hc (Hz 1%nat heap0 loser0 None)).
Defined.

(** When neither side has any spread (the beta counts, or beta, and the
    spread contributions are all zero), the z-factor divides by zero and
    the constructor raises [ZeroDivisionError]. *)
Theorem new_Event_zero_spread n h w win los p nm mw ml bw bl sw sl :
  mean n h win = Ok mw -> mean n h los = Ok ml ->
  beta_count n h win = Ok bw -> beta_count n h los = Ok bl ->
  sigma_variance_for_std_dev n h win = Ok sw ->
  sigma_variance_for_std_dev n h los = Ok sl ->
  IZR (bw + bl) * static_performance_spread p ^ 2 + sw + sl = 0 ->
  new_Event n h w win los p nm = Raise ZeroDivisionError.
Proof.
  intros Hmw Hml Hbw Hbl Hsw Hsl H0.
  unfold new_Event, _delta, _std_dev_of_performances, _z_factor.
  rewrite Hmw, Hml, Hbw, Hbl, Hsw, Hsl. cbv [mbind result_bind]. rewrite H0.
  rewrite math_sqrt_ok by lra. rewrite sqrt_0, float_div_zero. reflexivity.
Qed.

Lemma new_Event_zero_spread_witness :
  new_Event 1 heap_flat 1 winner0 loser0 params0 "flat" = Raise ZeroDivisionError.
Proof.
  apply (new_Event_zero_spread 1 heap_flat 1 winner0 loser0 params0 "flat"
           12 10 0 0 (0 ^ 2) (0 ^ 2)); try reflexivity.
  change (IZR (0 + 0)) with 0. lra.
Defined.

(** ** [copy_with] *)

(** [copy_with] uses none of the cached statistics: it is the constructor,
    run in the store of the call, on the stored inputs with the given
    overrides.  In the store the event was built in, the copy without
    overrides is the event itself, and overriding the weight changes the
    weight and no other field. *)
Theorem copy_with_reconstructs n h w win los p nm e :
  new_Event n h w win los p nm = Ok e ->
  (forall k h' ow owin olos op onm,
     copy_with k h' e ow owin olos op onm =
       new_Event k h' (default w ow) (default win owin) (default los olos)
                 (default p op) (default nm onm)) /\
  copy_with n h e None None None None None = Ok e /\
  copy_with n h e (Some (weight e)) None None None None = Ok e /\
  (forall w',
     copy_with n h e (Some w') None None None None =
       Ok {| weight := w'; winner := winner e; loser := loser e;
             parameters := parameters e; name := name e; delta := delta e;
             std_dev_of_performances := std_dev_of_performances e;
             z_factor := z_factor e; mean_scale := mean_scale e;
             variance_scale := variance_scale e |}).
Proof.
  intros H. pose proof H as H'.
  apply new_Event_inv in H' as (d & c & z & v & Hd & Hc & Hz & Hv & ->).
  assert (Hw : forall w',
    new_Event n h w' win los p nm =
      Ok {| weight := w'; winner := win; loser := los; parameters := p; name := nm;
            delta := d; std_dev_of_performances := c; z_factor := z;
            mean_scale := v; variance_scale := _variance_scale v z |}).
  { intros w'. unfold new_Event, _z_factor, _mean_scale.
    rewrite Hd. simpl. rewrite Hc. simpl. rewrite Hz. simpl. rewrite Hv. reflexivity. }
  split; [|split; [|split]].
  - intros k h' [?|] [?|] [?|] [?|] [?|]; reflexivity.
  - unfold copy_with; simpl. apply Hw.
  - unfold copy_with; simpl. apply Hw.
  - intros w'. unfold copy_with; simpl. apply Hw.
Qed.

Lemma copy_with_reconstructs_witness :
  copy_with 1 heap0 event0 None None None None None = Ok event0.
Proof.
  exact (proj1 (proj2 (copy_with_reconstructs 1 heap0 1 winner0 loser0 params0
                         "first" event0
                         (new_Event_duel 1 params0 25 (25 / 3) "first" ltac:(lra))))).
Defined.

(** ** Updating one leaf rating *)

Lemma standard_variance_update_same_variance n h h' r e :
  variance n h r = variance n h' r ->
  standard_variance_update n h r e = standard_variance_update n h' r e.
Proof. intros H. unfold standard_variance_update. rewrite H. reflexivity. Qed.

Lemma variance_insert_skill n h r m v m' :
  h !! r = Some (SkillBasedRating m v) ->
  variance n (<[r := SkillBasedRating m' v]> h) r = variance n h r.
Proof.
  intros Hr. destruct n as [|n]; [reflexivity|]. simpl.
  rewrite lookup_insert_eq, Hr. reflexivity.
Qed.

Lemma variance_insert_constant n h r s m v m' :
  h !! r = Some (ConstantRating s v m) ->
  variance n (<[r := ConstantRating s v m']> h) r = variance n h r.
Proof.
  intros Hr. destruct n as [|n]; [reflexivity|]. simpl.
  rewrite lookup_insert_eq, Hr. reflexivity.
Qed.

(** [update_mean_and_variance] on a [SkillBasedRating], or on a
    [ConstantRating] that is not set, assigns the new mean and the new
    variance that the two update formulas give in the store before the
    call: the variance update, though it runs second, still sees the old
    variance.  No other object changes. *)
Theorem update_mean_and_variance_leaf n h r e m v m' v' :
  standard_mean_update n h r e None = Ok m' ->
  standard_variance_update n h r e = Ok v' ->
  (h !! r = Some (SkillBasedRating m v) ->
   update_mean_and_variance (S (S n)) r e h
     = (Ok tt, <[r := SkillBasedRating m' v']> h)) /\
  (h !! r = Some (ConstantRating false v m) ->
   update_mean_and_variance (S (S n)) r e h
     = (Ok tt, <[r := ConstantRating false v' m']> h)).
Proof.
  intros Hm Hv. split; intros Hr.
  - rewrite <- (insert_insert_eq h r (SkillBasedRating m' v') (SkillBasedRating m' v)).
    apply (update_mean_and_variance_skill n h r e m v m' v' Hr Hm).
    rewrite <- Hv. apply standard_variance_update_same_variance.
    apply (variance_insert_skill n h r m v m' Hr).
  - unfold update_mean_and_variance. simpl. rewrite Hr, Hm.
    simpl. rewrite lookup_insert_eq.
    rewrite (standard_variance_update_same_variance n _ h r e
               (variance_insert_constant n h r false m v m' Hr)), Hv.
    rewrite insert_insert_eq. reflexivity.
Qed.

Lemma standard_variance_update_event0_heap0 :
  standard_variance_update 1 heap0 winner0 event0 = Ok (sqrt radicand0).
Proof. apply (standard_variance_update_event0 0 heap0 winner0 25). reflexivity. Qed.

Lemma update_mean_and_variance_leaf_witness :
  update_mean_and_variance 3 winner0 event0 heap0
    = (Ok tt, <[winner0 := SkillBasedRating (25 + weight event0 * IZR 1 * gain0)
                                             (sqrt radicand0)]> heap0).
Proof.
  exact (proj1 (update_mean_and_variance_leaf 1 heap0 winner0 event0 25 (25 / 3)
                  (25 + weight event0 * IZR 1 * gain0) (sqrt radicand0)
                  (standard_mean_update_winner0 0)
                  standard_variance_update_event0_heap0) eq_refl).
Defined.

(** When the variance update raises, after the mean update has returned,
    the exception leaves the rating with its new mean and its old
    variance: the update is not undone. *)
Theorem update_mean_and_variance_partial n h r e m v m' x :
  h !! r = Some (SkillBasedRating m v) ->
  standard_mean_update n h r e None = Ok m' ->
  standard_variance_update n h r e = Raise x ->
  update_mean_and_variance (S (S n)) r e h
    = (Raise x, <[r := SkillBasedRating m' v]> h).
Proof.
  intros Hr Hm Hv. unfold update_mean_and_variance.
  rewrite (update_mean_skill n h r e None m v m' Hr Hm).
  simpl. rewrite lookup_insert_eq.
  rewrite (standard_variance_update_same_variance n _ h r e
             (variance_insert_skill n h r m v m' Hr)), Hv.
  reflexivity.
Qed.

Lemma standard_mean_update_duel_winner n w p m s nm :
  0 < s ->
  standard_mean_update (S n) (duel m s) winner0 (duel_event w p m s nm) None
    = Ok (m + w * IZR 1 *
              (mean_scale (duel_event w p m s nm) *
                 ((s ^ 2 + tau p ^ 2)
                  / std_dev_of_performances (duel_event w p m s nm)))).
Proof.
  intros Hs. rewrite standard_mean_update_none.
  replace (direction_of_weight (S n) (duel m s) (duel_event w p m s nm) winner0)
    with (Ok 1%Z : result Z)
    by (symmetry; exact (direction_of_weight_winner n (duel m s) (duel_event w p m s nm))).
  simpl mbind.
  apply (standard_mean_update_some (S n) (duel m s) winner0 (duel_event w p m s nm) 1 m s);
    [reflexivity | reflexivity | apply Rgt_not_eq, duel_event_c_pos, Hs].
Qed.

Lemma standard_variance_update_drift :
  standard_variance_update 1 (duel 0 1) winner0 event_drift = Raise ValueError.
Proof.
  rewrite (standard_variance_update_unfold 1 (duel 0 1) winner0 event_drift 1 eq_refl)
    by (apply Rgt_not_eq, duel_event_c_pos; lra).
  apply math_sqrt_neg, event_drift_radicand.
Qed.

Lemma update_mean_and_variance_partial_witness :
  exists m' : R,
    update_mean_and_variance 3 winner0 event_drift (duel 0 1)
      = (Raise ValueError, <[winner0 := SkillBasedRating m' 1]> (duel 0 1)).
Proof.
  eexists.
  exact (update_mean_and_variance_partial 1 (duel 0 1) winner0 event_drift 0 1 _
           ValueError eq_refl
           (standard_mean_update_duel_winner 0 1 params_drift 0 1 "drift" ltac:(lra))
           standard_variance_update_drift).
Defined.

(** ** The size and the sign of the steps *)

Lemma pow2_pos (x : R) : x <> 0 -> 0 < x ^ 2.
Proof.
  intros Hx. pose proof (pow2_ge_0 x) as [H|H]; [exact H|].
  exfalso. apply (pow_nonzero x 2 Hx). symmetry. exact H.
Qed.


(** The two directions move the mean by the same step, up for [+1] and down
    for [-1]; the step is [weight * mean_scale * (variance^2 + tau^2) /
    std_dev_of_performances], which is positive when the weight, the mean
    scale and the spread are positive and the variance or tau is not
    zero. *)
Theorem standard_mean_update_mirror n h r e m v :
  mean n h r = Ok m ->
  variance n h r = Ok v ->
  std_dev_of_performances e <> 0 ->
  let step :=
    weight e * (mean_scale e *
                  ((v ^ 2 + tau (parameters e) ^ 2) / std_dev_of_performances e)) in
  standard_mean_update n h r e (Some 1%Z) = Ok (m + step) /\
  standard_mean_update n h r e (Some (-1)%Z) = Ok (m - step) /\
  (0 < weight e -> 0 < mean_scale e -> 0 < std_dev_of_performances e ->
   v <> 0 \/ tau (parameters e) <> 0 -> 0 < step).
Proof.
  intros Hm Hv Hc step. split; [|split].
  - rewrite (standard_mean_update_some n h r e 1 m v Hm Hv Hc).
    f_equal. unfold step. lra.
  - rewrite (standard_mean_update_some n h r e (-1) m v Hm Hv Hc).
    f_equal. unfold step. lra.
  - intros Hw Hms Hcp Hne. unfold step.
    apply Rmult_lt_0_compat; [exact Hw|].
    apply Rmult_lt_0_compat; [exact Hms|].
    apply Rdiv_lt_0_compat; [|exact Hcp].
    pose proof (pow2_ge_0 v). pose proof (pow2_ge_0 (tau (parameters e))).
    destruct Hne as [Hne|Hne].
    + assert (0 < v ^ 2) by (apply pow2_pos; exact Hne). lra.
    + assert (0 < tau (parameters e) ^ 2) by (apply pow2_pos; exact Hne). lra.
Qed.

Lemma standard_mean_update_mirror_witness :
  standard_mean_update 1 heap0 loser0 event0 (Some (-1)%Z)
    = Ok (25 - weight event0 *
               (mean_scale event0 *
                  (((25 / 3) ^ 2 + tau (parameters event0) ^ 2)
                   / std_dev_of_performances event0))).
Proof.
  exact (proj1 (proj2 (standard_mean_update_mirror 1 heap0 loser0 event0 25 (25 / 3)
                         eq_refl eq_refl (Rgt_not_eq _ _ event0_c_pos)))).
Defined.




(** ** What the updates leave alone *)

Lemma mean_changed_refl o : mean_changed o o.
Proof. destruct o; simpl; auto. Qed.

Lemma variance_changed_refl o : variance_changed o o.
Proof. destruct o; simpl; auto. Qed.

Lemma rating_changed_refl o : rating_changed o o.
Proof. destruct o; simpl; auto. Qed.

Lemma mean_changed_trans o1 o2 o3 :
  mean_changed o1 o2 -> mean_changed o2 o3 -> mean_changed o1 o3.
Proof.
  destruct o1, o2, o3; simpl; try tauto; try congruence.
  - intros (-> & -> & H1) (-> & -> & H2). repeat split.
    intros Hs. rewrite (H1 Hs). apply H2, Hs.
  - intros (-> & ->) (-> & ->). auto.
Qed.

Lemma variance_changed_trans o1 o2 o3 :
  variance_changed o1 o2 -> variance_changed o2 o3 -> variance_changed o1 o3.
Proof.
  destruct o1, o2, o3; simpl; try tauto; try congruence.
  - intros (-> & -> & H1) (-> & -> & H2). repeat split.
    intros Hs. rewrite (H1 Hs). apply H2, Hs.
  - intros (-> & ->) (-> & ->). auto.
Qed.

Lemma rating_changed_trans o1 o2 o3 :
  rating_changed o1 o2 -> rating_changed o2 o3 -> rating_changed o1 o3.
Proof.
  destruct o1, o2, o3; simpl; try tauto.
  - intros (-> & H1) (-> & H2). split; [reflexivity|].
    intros Hs. destruct (H1 Hs) as [-> ->]. apply H2, Hs.
  - intros (-> & ->) (-> & ->). auto.
Qed.

Section Pointwise.
Variable Q : Rating -> Rating -> Prop.
Hypothesis Q_refl : forall o, Q o o.
Hypothesis Q_trans : forall o1 o2 o3, Q o1 o2 -> Q o2 o3 -> Q o1 o3.

Lemma pointwise_refl h : pointwise Q h h.
Proof. intros r. destruct (h !! r); constructor. apply Q_refl. Qed.

Lemma pointwise_trans h1 h2 h3 :
  pointwise Q h1 h2 -> pointwise Q h2 h3 -> pointwise Q h1 h3.
Proof.
  intros H12 H23 r. specialize (H12 r). specialize (H23 r).
  destruct H12 as [o1 o2 H12|]; inversion H23; subst; constructor.
  eapply Q_trans; eassumption.
Qed.

Lemma pointwise_insert h r o o' :
  h !! r = Some o -> Q o o' -> pointwise Q h (<[r := o']> h).
Proof.
  intros Hr Ho r'. destruct (decide (r = r')) as [<-|Hne].
  - rewrite lookup_insert_eq, Hr. constructor. exact Ho.
  - rewrite lookup_insert_ne by exact Hne. apply pointwise_refl.
Qed.

Lemma for_each_pointwise (body : ref -> update) (rs : list ref) :
  (forall c h res h', body c h = (res, h') -> pointwise Q h h') ->
  forall h res h', for_each body rs h = (res, h') -> pointwise Q h h'.
Proof.
  intros Hbody. induction rs as [|c rs IH]; intros h res h' H; simpl in H.
  - injection H as _ <-. apply pointwise_refl.
  - destruct (body c h) as [[[]|x] h1] eqn:Hc.
    + eapply pointwise_trans; [eapply Hbody, Hc | eapply IH, H].
    + injection H as _ <-. eapply Hbody, Hc.
Qed.
End Pointwise.

Lemma pointwise_impl (Q Q' : Rating -> Rating -> Prop) h h' :
  (forall o o', Q o o' -> Q' o o') -> pointwise Q h h' -> pointwise Q' h h'.
Proof. intros HQ H r. destruct (H r); constructor. apply HQ. assumption. Qed.

Lemma update_mean_pointwise n :
  forall r e wl h res h',
    update_mean n r e wl h = (res, h') -> pointwise mean_changed h h'.
Proof.
  induction n as [|n IH]; intros r e wl h res h' H; simpl in H.
  - injection H as _ <-. apply pointwise_refl, mean_changed_refl.
  - destruct (h !! r) as [[m v|s v m|nm rs]|] eqn:Hr.
    + destruct (standard_mean_update n h r e wl); injection H as _ <-;
        [|apply pointwise_refl, mean_changed_refl].
      eapply pointwise_insert; [apply mean_changed_refl | exact Hr | reflexivity].
    + destruct s; [injection H as _ <-; apply pointwise_refl, mean_changed_refl|].
      destruct (standard_mean_update n h r e wl); injection H as _ <-;
        [|apply pointwise_refl, mean_changed_refl].
      eapply pointwise_insert; [apply mean_changed_refl | exact Hr |].
      simpl. repeat split. discriminate.
    + destruct (direction_of_weight n h e r) as [d|];
        [|injection H as _ <-; apply pointwise_refl, mean_changed_refl].
      eapply for_each_pointwise;
        [apply mean_changed_refl | apply mean_changed_trans | | exact H].
      intros c h0 res0 h0'. apply IH.
    + injection H as _ <-. apply pointwise_refl, mean_changed_refl.
Qed.

Lemma update_variance_pointwise n :
  forall r e h res h',
    update_variance n r e h = (res, h') -> pointwise variance_changed h h'.
Proof.
  induction n as [|n IH]; intros r e h res h' H; simpl in H.
  - injection H as _ <-. apply pointwise_refl, variance_changed_refl.
  - destruct (h !! r) as [[m v|s v m|nm rs]|] eqn:Hr.
    + destruct (standard_variance_update n h r e); injection H as _ <-;
        [|apply pointwise_refl, variance_changed_refl].
      eapply pointwise_insert; [apply variance_changed_refl | exact Hr | reflexivity].
    + destruct s; [injection H as _ <-; apply pointwise_refl, variance_changed_refl|].
      destruct (standard_variance_update n h r e); injection H as _ <-;
        [|apply pointwise_refl, variance_changed_refl].
      eapply pointwise_insert; [apply variance_changed_refl | exact Hr |].
      simpl. repeat split. discriminate.
    + eapply for_each_pointwise;
        [apply variance_changed_refl | apply variance_changed_trans | | exact H].
      intros c h0 res0 h0'. apply IH.
    + injection H as _ <-. apply pointwise_refl, variance_changed_refl.
Qed.

Lemma mean_changed_same_variance o o' :
  mean_changed o o' -> same_leaf leaf_variance o o'.
Proof. destruct o, o'; simpl; tauto. Qed.

Lemma mean_changed_same_beta_count o o' :
  mean_changed o o' -> same_leaf leaf_beta_count o o'.
Proof. destruct o, o'; simpl; tauto. Qed.

Lemma mean_changed_same_sigma o o' :
  mean_changed o o' -> same_leaf leaf_sigma o o'.
Proof.
  destruct o, o'; simpl; try tauto; unfold leaf_sigma; simpl.
  - intros ->. reflexivity.
  - intros (_ & -> & _). reflexivity.
Qed.

Lemma variance_changed_same_mean o o' :
  variance_changed o o' -> same_leaf leaf_mean o o'.
Proof. destruct o, o'; simpl; tauto. Qed.

Lemma variance_changed_same_beta_count o o' :
  variance_changed o o' -> same_leaf leaf_beta_count o o'.
Proof. destruct o, o'; simpl; tauto. Qed.

Lemma rating_changed_same_beta_count o o' :
  rating_changed o o' -> same_leaf leaf_beta_count o o'.
Proof. destruct o, o'; simpl; tauto. Qed.

(** An update of means, on any rating and whether it returns or raises,
    changes no variance, no beta count and no spread contribution: every
    such read, of every rating, is the same before and after, and so is the
    performance spread an event would compute. *)
Theorem update_mean_keeps_variances n r e wl h res h' :
  update_mean n r e wl h = (res, h') ->
  (forall k r',
     variance k h' r' = variance k h r' /\
     beta_count k h' r' = beta_count k h r' /\
     sigma_variance_for_std_dev k h' r' = sigma_variance_for_std_dev k h r') /\
  (forall k win los p,
     _std_dev_of_performances k h' win los p = _std_dev_of_performances k h win los p).
Proof.
  intros H. apply update_mean_pointwise in H.
  assert (Hreads : forall k r',
     variance k h' r' = variance k h r' /\
     beta_count k h' r' = beta_count k h r' /\
     sigma_variance_for_std_dev k h' r' = sigma_variance_for_std_dev k h r').
  { intros k r'. rewrite !variance_read, !beta_count_read, !sigma_read.
    repeat split; symmetry; apply read_same_leaf;
      eapply pointwise_impl; try exact H.
    - apply mean_changed_same_variance.
    - apply mean_changed_same_beta_count.
    - apply mean_changed_same_sigma. }
  split; [exact Hreads|].
  intros k win los p. unfold _std_dev_of_performances.
  destruct (Hreads k win) as (_ & -> & ->). destruct (Hreads k los) as (_ & -> & ->).
  reflexivity.
Qed.

Lemma update_mean_winner0 :
  update_mean 2 winner0 event0 None heap0
    = (Ok tt, <[winner0 := SkillBasedRating (25 + weight event0 * IZR 1 * gain0) (25 / 3)]>
                heap0).
Proof.
  apply (update_mean_skill 1 heap0 winner0 event0 None 25 (25 / 3));
    [reflexivity | apply standard_mean_update_winner0].
Qed.

Lemma update_mean_keeps_variances_witness :
  variance 1 (<[winner0 := SkillBasedRating (25 + weight event0 * IZR 1 * gain0)
                                             (25 / 3)]> heap0) winner0
    = variance 1 heap0 winner0.
Proof.
  exact (proj1 (proj1 (update_mean_keeps_variances 2 winner0 event0 None heap0 _ _
                         update_mean_winner0) 1%nat winner0)).
Defined.

(** An update of variances changes no mean and no beta count, so the
    difference of means an event would compute is the same before and
    after. *)
Theorem update_variance_keeps_means n r e h res h' :
  update_variance n r e h = (res, h') ->
  (forall k r',
     mean k h' r' = mean k h r' /\ beta_count k h' r' = beta_count k h r') /\
  (forall k win los, _delta k h' win los = _delta k h win los).
Proof.
  intros H. apply update_variance_pointwise in H.
  assert (Hreads : forall k r',
     mean k h' r' = mean k h r' /\ beta_count k h' r' = beta_count k h r').
  { intros k r'. rewrite !mean_read, !beta_count_read.
    split; symmetry; apply read_same_leaf; eapply pointwise_impl; try exact H.
    - apply variance_changed_same_mean.
    - apply variance_changed_same_beta_count. }
  split; [exact Hreads|].
  intros k win los. unfold _delta.
  destruct (Hreads k win) as (-> & _). destruct (Hreads k los) as (-> & _).
  reflexivity.
Qed.

Lemma update_variance_winner0 :
  update_variance 2 winner0 event0 heap0
    = (Ok tt, <[winner0 := SkillBasedRating 25 (sqrt radicand0)]> heap0).
Proof.
  apply (update_variance_skill 1 heap0 winner0 event0 25 (25 / 3));
    [reflexivity | apply standard_variance_update_event0_heap0].
Qed.

Lemma update_variance_keeps_means_witness :
  mean 1 (<[winner0 := SkillBasedRating 25 (sqrt radicand0)]> heap0) winner0
    = mean 1 heap0 winner0.
Proof.
  exact (proj1 (proj1 (update_variance_keeps_means 2 winner0 event0 heap0 _ _
                         update_variance_winner0) 1%nat winner0)).
Defined.

Lemma mean_changed_rating_changed o o' : mean_changed o o' -> rating_changed o o'.
Proof.
  destruct o, o'; simpl; tauto.
Qed.

Lemma variance_changed_rating_changed o o' :
  variance_changed o o' -> rating_changed o o'.
Proof.
  destruct o, o'; simpl; tauto.
Qed.

Lemma update_mean_and_variance_pointwise n r e h res h' :
  update_mean_and_variance n r e h = (res, h') -> pointwise rating_changed h h'.
Proof.
  pose proof mean_changed_rating_changed as Hm.
  pose proof variance_changed_rating_changed as Hv.
  destruct n as [|n]; simpl; intros H.
  - injection H as _ <-. apply pointwise_refl, rating_changed_refl.
  - destruct (update_mean n r e None h) as [[[]|x] h1] eqn:H1.
    + eapply pointwise_trans; [apply rating_changed_trans | |].
      * eapply pointwise_impl; [exact Hm | eapply update_mean_pointwise, H1].
      * eapply pointwise_impl; [exact Hv | eapply update_variance_pointwise, H].
    + injection H as _ <-.
      eapply pointwise_impl; [exact Hm | eapply update_mean_pointwise, H1].
Qed.

(** Whatever rating [update_mean_and_variance] is called on, and whether it
    returns or raises: every frozen [ConstantRating] of the store and every
    composite is left as it was, no object is created or removed, and every
    beta count reads as before. *)
Theorem update_mean_and_variance_invariants n r e h res h' :
  update_mean_and_variance n r e h = (res, h') ->
  (forall r' v m,
     h !! r' = Some (ConstantRating true v m) ->
     h' !! r' = Some (ConstantRating true v m)) /\
  (forall r' nm rs,
     h !! r' = Some (RateableTotality nm rs) ->
     h' !! r' = Some (RateableTotality nm rs)) /\
  (forall r', h' !! r' = None <-> h !! r' = None) /\
  (forall k r', beta_count k h' r' = beta_count k h r').
Proof.
  intros H. apply update_mean_and_variance_pointwise in H.
  split; [|split; [|split]].
  - intros r' v m Hr. specialize (H r'). rewrite Hr in H.
    inversion H as [o o' Ho Heq1 Heq2|]; subst.
    destruct o' as [| s' v' m' |]; simpl in Ho; try contradiction.
    destruct Ho as (<- & Hs). destruct (Hs eq_refl) as [<- <-]. reflexivity.
  - intros r' nm rs Hr. specialize (H r'). rewrite Hr in H.
    inversion H as [o o' Ho Heq1 Heq2|]; subst.
    destruct o' as [| | nm' rs']; simpl in Ho; try contradiction.
    destruct Ho as (<- & <-). reflexivity.
  - intros r'. specialize (H r').
    destruct H; split; intros; congruence.
  - intros k r'. rewrite !beta_count_read. symmetry. apply read_same_leaf.
    eapply pointwise_impl; [apply rating_changed_same_beta_count | exact H].
Qed.

Lemma update_mean_and_variance_invariants_witness :
  snd (update_mean_and_variance 4 team0 event0 heap_mixed) !! frozen0
    = Some (ConstantRating true 2 30).
Proof.
  exact (proj1 (update_mean_and_variance_invariants 4 team0 event0 heap_mixed _ _
                  (surjective_pairing _)) frozen0 2 30 eq_refl).
Defined.

(** ** Updating a team *)

(** A loop whose body replaces the visited object [o] by [g o], over
    distinct references. *)
Lemma for_each_leaves (body : ref -> update) (g : Rating -> Rating)
    (P : Rating -> Prop) (rs : list ref) :
  (forall c h o, h !! c = Some o -> P o -> body c h = (Ok tt, <[c := g o]> h)) ->
  NoDup rs ->
  forall h : heap,
    (forall c, c ∈ rs -> exists o, h !! c = Some o /\ P o) ->
    exists h' : heap,
      for_each body rs h = (Ok tt, h') /\
      (forall c o, c ∈ rs -> h !! c = Some o -> h' !! c = Some (g o)) /\
      (forall x, x ∉ rs -> h' !! x = h !! x).
Proof.
  intros Hbody. induction rs as [|c rs IH]; intros Hnd h Hall.
  - exists h. split; [reflexivity|]. split; [|reflexivity].
    intros c o Hc. apply elem_of_nil in Hc. destruct Hc.
  - apply NoDup_cons in Hnd as [Hc Hnd].
    destruct (Hall c) as (o & Ho & HP); [apply elem_of_cons; left; reflexivity|].
    destruct (IH Hnd (<[c := g o]> h)) as (h' & Hrun & Hin & Hout).
    { intros c' Hc'. assert (c <> c') by (intros ->; exact (Hc Hc')).
      rewrite lookup_insert_ne by assumption.
      apply Hall, elem_of_cons. right. exact Hc'. }
    exists h'. split; [|split].
    + simpl. rewrite (Hbody c h o Ho HP). exact Hrun.
    + intros c' o' Hc' Ho'. apply elem_of_cons in Hc' as [->|Hc'].
      * rewrite (Hout c Hc), lookup_insert_eq. congruence.
      * apply Hin; [exact Hc'|].
        assert (c <> c') by (intros ->; exact (Hc Hc')).
        rewrite lookup_insert_ne by assumption. exact Ho'.
    + intros x Hx. rewrite not_elem_of_cons in Hx. destruct Hx as [Hxc Hx].
      rewrite (Hout x Hx). apply lookup_insert_ne. congruence.
Qed.

(** [RateableTotality.update_mean] ignores the direction it is passed: it
    asks the event for the direction of the composite itself and passes that
    one to every child.  For a team of distinct [SkillBasedRating] members,
    every member's mean moves by its own step in the team's direction, its
    variance stays, and no other object of the store changes. *)
Theorem update_mean_team n h t nm rs e wl d :
  h !! t = Some (RateableTotality nm rs) ->
  NoDup rs ->
  (forall c, c ∈ rs -> exists o, h !! c = Some o /\ is_skill o) ->
  direction_of_weight (S (S n)) h e t = Ok d ->
  std_dev_of_performances e <> 0 ->
  exists h' : heap,
    update_mean (S (S (S n))) t e wl h = (Ok tt, h') /\
    (forall c o, c ∈ rs -> h !! c = Some o -> h' !! c = Some (moved_mean e d o)) /\
    (forall x, x ∉ rs -> h' !! x = h !! x).
Proof.
  intros Ht Hnd Hall Hd Hc.
  destruct (for_each_leaves
              (fun c => update_mean (S (S n)) c e (Some d)) (moved_mean e d) is_skill rs)
    with (h := h) as (h' & Hrun & Hin & Hout); [|exact Hnd|exact Hall|].
  - intros c h0 o Ho HP. destruct o as [m v| |]; [|destruct HP|destruct HP].
    apply (update_mean_skill (S n) h0 c e (Some d) m v); [exact Ho|].
    apply standard_mean_update_some;
      [eapply mean_skill, Ho | eapply variance_skill, Ho | exact Hc].
  - exists h'. split; [|split; assumption].
    change (update_mean (S (S (S n))) t e wl h)
      with (match h !! t with
            | None => (Raise DanglingReference, h)
            | Some (SkillBasedRating m v) =>
                match standard_mean_update (S (S n)) h t e wl with
                | Ok m' => (Ok tt, <[t := SkillBasedRating m' v]> h)
                | Raise x => (Raise x, h)
                end
            | Some (ConstantRating is_set v m) =>
                if is_set then (Ok tt, h) else
                match standard_mean_update (S (S n)) h t e wl with
                | Ok m' => (Ok tt, <[t := ConstantRating is_set v m']> h)
                | Raise x => (Raise x, h)
                end
            | Some (RateableTotality _ rs0) =>
                match direction_of_weight (S (S n)) h e t with
                | Ok d0 => for_each (fun c => update_mean (S (S n)) c e (Some d0)) rs0 h
                | Raise x => (Raise x, h)
                end
            end).
    rewrite Ht, Hd. exact Hrun.
Qed.

(** [RateableTotality.update_variance], for a team of distinct
    [SkillBasedRating] members whose radicands are not negative: every
    member gets the variance its own update gives, its mean stays, and no
    other object changes. *)
Theorem update_variance_team n h t nm rs e :
  h !! t = Some (RateableTotality nm rs) ->
  NoDup rs ->
  (forall c, c ∈ rs ->
     exists m v, h !! c = Some (SkillBasedRating m v) /\ 0 <= variance_radicand e v) ->
  std_dev_of_performances e <> 0 ->
  exists h' : heap,
    update_variance (S (S (S n))) t e h = (Ok tt, h') /\
    (forall c o, c ∈ rs -> h !! c = Some o -> h' !! c = Some (moved_variance e o)) /\
    (forall x, x ∉ rs -> h' !! x = h !! x).
Proof.
  intros Ht Hnd Hall Hc.
  destruct (for_each_leaves
              (fun c => update_variance (S (S n)) c e) (moved_variance e)
              (fun o => match o with
                        | SkillBasedRating _ v => 0 <= variance_radicand e v
                        | _ => False
                        end) rs)
    with (h := h) as (h' & Hrun & Hin & Hout); [|exact Hnd| |].
  - intros c h0 o Ho HP. destruct o as [m v| |]; [|destruct HP|destruct HP].
    apply (update_variance_skill (S n) h0 c e m v); [exact Ho|].
    rewrite (standard_variance_update_unfold (S n) h0 c e v
               (variance_skill h0 c n m v Ho) Hc).
    apply math_sqrt_ok. exact HP.
  - intros c Hcin. destruct (Hall c Hcin) as (m & v & Ho & Hr).
    exists (SkillBasedRating m v). auto.
  - exists h'. split; [|split; assumption].
    simpl. simpl in Hrun. rewrite Ht. exact Hrun.
Qed.

Lemma team_members_distinct : NoDup [winner0; loser0].
Proof.
  apply NoDup_cons. split.
  - intros H. apply list_elem_of_singleton in H. discriminate.
  - apply NoDup_singleton.
Qed.

Lemma team_members_skill (c : ref) :
  c ∈ [winner0; loser0] -> exists o, heap_team !! c = Some o /\ is_skill o.
Proof.
  intros H. apply elem_of_cons in H as [->|H].
  - exists (SkillBasedRating 25 (25 / 3)). split; [reflexivity | exact I].
  - apply list_elem_of_singleton in H as ->.
    exists (SkillBasedRating 25 (25 / 3)). split; [reflexivity | exact I].
Qed.

Lemma team_members_radicand (c : ref) :
  c ∈ [winner0; loser0] ->
  exists m v, heap_team !! c = Some (SkillBasedRating m v)
              /\ 0 <= variance_radicand event0 v.
Proof.
  assert (Hr : 0 <= variance_radicand event0 (25 / 3)) by apply radicand0_bounds.
  intros H. apply elem_of_cons in H as [->|H].
  - exists 25, (25 / 3). split; [reflexivity | exact Hr].
  - apply list_elem_of_singleton in H as ->.
    exists 25, (25 / 3). split; [reflexivity | exact Hr].
Qed.

Lemma update_mean_team_witness :
  exists h' : heap,
    update_mean 3 team0 event0 None heap_team = (Ok tt, h') /\
    h' !! loser0 = Some (moved_mean event0 (-1) (SkillBasedRating 25 (25 / 3))) /\
    h' !! team0 = heap_team !! team0.
Proof.
  destruct (update_mean_team 0 heap_team team0 "team" [winner0; loser0] event0 None (-1)
              eq_refl team_members_distinct team_members_skill eq_refl
              (Rgt_not_eq _ _ event0_c_pos)) as (h' & Hrun & Hin & Hout).
  exists h'. split; [exact Hrun|]. split.
  - apply Hin; [|reflexivity]. apply elem_of_cons. right. apply list_elem_of_singleton.
    reflexivity.
  - apply Hout. intros H. apply elem_of_cons in H as [H|H]; [discriminate|].
    apply list_elem_of_singleton in H. discriminate.
Defined.

Lemma update_variance_team_witness :
  exists h' : heap,
    update_variance 3 team0 event0 heap_team = (Ok tt, h') /\
    h' !! winner0 = Some (moved_variance event0 (SkillBasedRating 25 (25 / 3))).
Proof.
  destruct (update_variance_team 0 heap_team team0 "team" [winner0; loser0] event0
              eq_refl team_members_distinct team_members_radicand
              (Rgt_not_eq _ _ event0_c_pos)) as (h' & Hrun & Hin & _).
  exists h'. split; [exact Hrun|].
  apply Hin; [|reflexivity]. apply elem_of_cons. left. reflexivity.
Defined.

(** ** A composite that contains itself *)

Lemma read_self_containing {A : Type} (leaf : Rating -> A) (combine : list A -> A)
    h t nm rs :
  h !! t = Some (RateableTotality nm rs) -> t ∈ rs ->
  forall n a, read leaf combine n h t <> Ok a.
Proof.
  intros Ht Hin. induction n as [|n IH]; intros a; simpl; [discriminate|].
  rewrite Ht.
  destruct (traverse (read leaf combine n h) rs) as [xs|] eqn:Hxs; simpl; [|discriminate].
  exfalso. apply list_elem_of_In in Hin.
  destruct (traverse_ok_in _ _ _ Hxs t Hin) as (y & Hy & _). exact (IH y Hy).
Qed.

Lemma for_each_ok_inv (body : ref -> update) (rs : list ref) :
  (forall c h res h', body c h = (res, h') -> keeps_totalities h h') ->
  forall h h' c,
    for_each body rs h = (Ok tt, h') -> c ∈ rs ->
    exists h0 h1, keeps_totalities h h0 /\ body c h0 = (Ok tt, h1).
Proof.
  intros Hbody. induction rs as [|c0 rs IH]; intros h h' c H Hc.
  - apply elem_of_nil in Hc. destruct Hc.
  - simpl in H. destruct (body c0 h) as [[[]|x] h1] eqn:Hc0; [|discriminate].
    apply elem_of_cons in Hc as [->|Hc].
    + exists h, h1. split; [apply keeps_totalities_refl | exact Hc0].
    + destruct (IH h1 h' c H Hc) as (h0 & h2 & Hk & Hrun).
      exists h0, h2. split; [|exact Hrun].
      eapply keeps_totalities_trans; [eapply Hbody, Hc0 | exact Hk].
Qed.

Lemma update_mean_self_containing t nm rs e :
  t ∈ rs ->
  forall n wl h h',
    h !! t = Some (RateableTotality nm rs) -> update_mean n t e wl h <> (Ok tt, h').
Proof.
  intros Hin. induction n as [|n IH]; intros wl h h' Ht; simpl; [discriminate|].
  rewrite Ht. destruct (direction_of_weight n h e t) as [d|]; [|discriminate].
  intros Hrun.
  destruct (for_each_ok_inv (fun c => update_mean n c e (Some d)) rs
              (fun c h0 res h1 => update_mean_keeps n c e (Some d) h0 res h1)
              h h' t Hrun Hin) as (h0 & h1 & Hk & Hbody).
  exact (IH (Some d) h0 h1 (Hk t nm rs Ht) Hbody).
Qed.

(** A [RateableTotality] that lists itself among its ratings never yields a
    value: at every recursion depth its [mean], [variance], [beta_count] and
    [sigma_variance_for_std_dev()] raise, no [Event] can be constructed with
    it as the winner or the loser, and [update_mean_and_variance] on it
    raises too. *)
Theorem self_containing_totality h t nm rs :
  h !! t = Some (RateableTotality nm rs) -> t ∈ rs ->
  forall n : nat,
    (forall a, mean n h t <> Ok a) /\
    (forall a, variance n h t <> Ok a) /\
    (forall a, beta_count n h t <> Ok a) /\
    (forall a, sigma_variance_for_std_dev n h t <> Ok a) /\
    (forall w other p nm' e,
       new_Event n h w t other p nm' <> Ok e /\
       new_Event n h w other t p nm' <> Ok e) /\
    (forall e h', update_mean_and_variance n t e h <> (Ok tt, h')).
Proof.
  intros Ht Hin n.
  assert (Hm : forall a, mean n h t <> Ok a)
    by (intros a; rewrite mean_read; eapply read_self_containing; eassumption).
  split; [exact Hm|].
  split; [intros a; rewrite variance_read; eapply read_self_containing; eassumption|].
  split; [intros a; rewrite beta_count_read; eapply read_self_containing; eassumption|].
  split; [intros a; rewrite sigma_read; eapply read_self_containing; eassumption|].
  split.
  - intros w other p nm' e. split; intros H;
      apply new_Event_inv in H as (d & c & z & v & Hd & _); unfold _delta in Hd.
    + destruct (mean n h t) as [a|] eqn:Ha; [exact (Hm a eq_refl) | discriminate].
    + destruct (mean n h other) as [b|]; [|discriminate]. simpl in Hd.
      destruct (mean n h t) as [a|] eqn:Ha; [exact (Hm a eq_refl) | discriminate].
  - intros e h'. destruct n as [|n]; simpl; [discriminate|].
    destruct (update_mean n t e None h) as [[[]|x] h1] eqn:Hu; [|discriminate].
    exfalso. exact (update_mean_self_containing t nm rs e Hin n None h h1 Ht Hu).
Qed.

Lemma self_containing_totality_witness :
  mean 1000 heap_cyclic team0 <> Ok 50.
Proof.
  refine (proj1 (self_containing_totality heap_cyclic team0 "loop" [winner0; team0]
                   eq_refl _ 1000%nat) 50).
  apply elem_of_cons. right. apply list_elem_of_singleton. reflexivity.
Defined.

(** ** Copies of ratings *)

Lemma allocate_spec o h res h' :
  allocate o h = (res, h') ->
  exists a, res = Ok a /\ h !! a = None /\ h' = <[a := o]> h /\ h ⊆ h'.
Proof.
  unfold allocate. intros [= <- <-].
  assert (Hf : h !! fresh (dom h) = None) by (apply not_elem_of_dom, is_fresh).
  exists (fresh (dom h)). repeat split; [exact Hf|]. apply insert_subseteq, Hf.
Qed.

Lemma copy_all_extends (cp : ref -> heap -> result ref * heap) (rs : list ref) :
  (forall c h res h', cp c h = (res, h') -> h ⊆ h') ->
  forall h res h', copy_all cp rs h = (res, h') -> h ⊆ h'.
Proof.
  intros Hcp. induction rs as [|c rs IH]; intros h res h' H; simpl in H.
  - injection H as _ <-. reflexivity.
  - destruct (cp c h) as [[a|x] h1] eqn:Hc.
    + destruct (copy_all cp rs h1) as [[rest|x] h2] eqn:Hrs; injection H as _ <-;
        (transitivity h1; [eapply Hcp, Hc | eapply IH, Hrs]).
    + injection H as _ <-. eapply Hcp, Hc.
Qed.

Lemma copy_extends n : forall r h res h', copy n r h = (res, h') -> h ⊆ h'.
Proof.
  induction n as [|n IH]; intros r h res h' H; simpl in H.
  - injection H as _ <-. reflexivity.
  - destruct (h !! r) as [[m v|s v m|nm rs]|] eqn:Hr.
    + apply allocate_spec in H as (a & _ & _ & _ & Hsub). exact Hsub.
    + apply allocate_spec in H as (a & _ & _ & _ & Hsub). exact Hsub.
    + destruct (copy_all (copy n) rs h) as [[rs'|x] h1] eqn:Hrs.
      * apply allocate_spec in H as (a & _ & _ & _ & Hsub).
        transitivity h1; [|exact Hsub].
        eapply copy_all_extends; [exact IH | exact Hrs].
      * injection H as _ <-. eapply copy_all_extends; [exact IH | exact Hrs].
    + injection H as _ <-. reflexivity.
Qed.

Lemma copy_fresh n r h a h' :
  copy n r h = (Ok a, h') -> h !! a = None /\ exists o, h' !! a = Some o.
Proof.
  destruct n as [|n]; simpl; [discriminate|].
  destruct (h !! r) as [[m v|s v m|nm rs]|] eqn:Hr; [| | |discriminate].
  - intros H. apply allocate_spec in H as (a' & [= <-] & Hf & -> & _).
    split; [exact Hf|]. eexists. apply lookup_insert_eq.
  - intros H. apply allocate_spec in H as (a' & [= <-] & Hf & -> & _).
    split; [exact Hf|]. eexists. apply lookup_insert_eq.
  - destruct (copy_all (copy n) rs h) as [[rs'|x] h1] eqn:Hrs; [|discriminate].
    intros H. apply allocate_spec in H as (a' & [= <-] & Hf & -> & _).
    split; [|eexists; apply lookup_insert_eq].
    assert (Hsub : h ⊆ h1) by (eapply copy_all_extends; [apply copy_extends | exact Hrs]).
    destruct (h !! a) as [o|] eqn:Ha; [|reflexivity].
    rewrite (lookup_weaken h h1 a o Ha Hsub) in Hf. discriminate.
Qed.

(** [copy.copy] returns a new object: its reference is not one of the store
    before the call.  Whether the copy returns or raises, every object that
    was in the store is still there and unchanged. *)
Theorem copy_is_new n r h res h' :
  copy n r h = (res, h') ->
  (forall x o, h !! x = Some o -> h' !! x = Some o) /\
  (forall a, res = Ok a -> h !! a = None /\ a <> r /\ exists o, h' !! a = Some o).
Proof.
  intros H. split.
  - intros x o Hx. eapply lookup_weaken; [exact Hx | eapply copy_extends, H].
  - intros a ->. destruct (copy_fresh n r h a h' H) as [Hf Hb].
    split; [exact Hf|]. split; [|exact Hb].
    intros ->. destruct n as [|n]; simpl in H; [discriminate|].
    rewrite Hf in H. discriminate.
Qed.

Lemma copy_is_new_witness :
  snd (copy 2 team0 heap_team) !! winner0 = Some (SkillBasedRating 25 (25 / 3)).
Proof.
  exact (proj1 (copy_is_new 2 team0 heap_team _ _ (surjective_pairing _))
           winner0 (SkillBasedRating 25 (25 / 3)) eq_refl).
Defined.

Lemma traverse_ok_mono {A B : Type} (f g : A -> result B) (l : list A) (ys : list B) :
  (forall a y, f a = Ok y -> g a = Ok y) ->
  traverse f l = Ok ys -> traverse g l = Ok ys.
Proof.
  intros Hfg. revert ys. induction l as [|x l IH]; intros ys H; [exact H|].
  apply traverse_cons_inv in H as (y & ys' & Hx & Hl & ->).
  simpl. rewrite (Hfg x y Hx), (IH ys' Hl). reflexivity.
Qed.

Section CopyReads.
Context {A : Type} (leaf : Rating -> A) (combine : list A -> A).

(** A read that returns in a store returns the same in every larger one. *)
Lemma read_weaken h h' :
  h ⊆ h' ->
  forall k r v, read leaf combine k h r = Ok v -> read leaf combine k h' r = Ok v.
Proof.
  intros Hsub. induction k as [|k IH]; intros r v; simpl; [discriminate|].
  destruct (h !! r) as [o|] eqn:Hr; [|discriminate].
  rewrite (lookup_weaken h h' r o Hr Hsub).
  destruct o as [m s|b s m|nm rs]; try (intros H; exact H).
  destruct (traverse (read leaf combine k h) rs) as [xs|] eqn:Hxs; simpl; [|discriminate].
  rewrite (traverse_ok_mono _ (read leaf combine k h') rs xs IH Hxs). intros H; exact H.
Qed.

Lemma copy_all_reads (cp : ref -> heap -> result ref * heap) (k : nat) :
  (forall c h res h', cp c h = (res, h') -> h ⊆ h') ->
  (forall c h a h' x, cp c h = (Ok a, h') ->
     read leaf combine k h c = Ok x -> read leaf combine k h' a = Ok x) ->
  forall rs h rs' h' xs,
    copy_all cp rs h = (Ok rs', h') ->
    traverse (read leaf combine k h) rs = Ok xs ->
    traverse (read leaf combine k h') rs' = Ok xs.
Proof.
  intros Hext Hcp. induction rs as [|c rs IH]; intros h rs' h' xs H Hxs; simpl in H.
  - injection H as <- <-. exact Hxs.
  - destruct (cp c h) as [[a|x] h1] eqn:Hc; [|discriminate].
    destruct (copy_all cp rs h1) as [[rest|x] h2] eqn:Hrs; [|discriminate].
    injection H as <- <-.
    apply traverse_cons_inv in Hxs as (y & ys & Hy & Hys & ->).
    assert (H01 : h ⊆ h1) by (eapply Hext, Hc).
    assert (H12 : h1 ⊆ h2) by (eapply copy_all_extends; [exact Hext | exact Hrs]).
    simpl.
    rewrite (read_weaken h1 h2 H12 k a y (Hcp c h a h1 y Hc Hy)). simpl.
    rewrite (IH h1 rest h2 ys Hrs
               (traverse_ok_mono _ _ rs ys (read_weaken h h1 H01 k) Hys)).
    reflexivity.
Qed.

Lemma copy_reads n :
  forall r h a h',
    copy n r h = (Ok a, h') ->
    forall k x, read leaf combine k h r = Ok x -> read leaf combine k h' a = Ok x.
Proof.
  induction n as [|n IH]; intros r h a h' H k x Hx; simpl in H; [discriminate|].
  destruct k as [|k]; simpl in Hx; [discriminate|].
  destruct (h !! r) as [[m v|s v m|nm rs]|] eqn:Hr; [| | |discriminate].
  - apply allocate_spec in H as (a' & [= <-] & _ & -> & _).
    simpl. rewrite lookup_insert_eq. exact Hx.
  - apply allocate_spec in H as (a' & [= <-] & _ & -> & _).
    simpl. rewrite lookup_insert_eq. exact Hx.
  - destruct (copy_all (copy n) rs h) as [[rs'|e] h1] eqn:Hrs; [|discriminate].
    apply allocate_spec in H as (a' & [= <-] & _ & -> & Hsub).
    simpl. rewrite lookup_insert_eq.
    destruct (traverse (read leaf combine k h) rs) as [xs|] eqn:Hxs; simpl in Hx;
      [|discriminate].
    assert (H1 : traverse (read leaf combine k h1) rs' = Ok xs).
    { eapply copy_all_reads; [apply copy_extends | | exact Hrs | exact Hxs].
      intros c h0 a0 h0' y Hc. apply (IH c h0 a0 h0' Hc). }
    rewrite (traverse_ok_mono _ _ rs' xs (read_weaken h1 _ Hsub k) H1). exact Hx.
Qed.
End CopyReads.

(** The copy of a rating reads as the original does: whenever the
    original's [mean], [variance], [beta_count] or
    [sigma_variance_for_std_dev()] returns a value, the copy's returns the
    same value, in the store after the copy. *)
Theorem copy_reads_agree n r h a h' :
  copy n r h = (Ok a, h') ->
  forall k,
    (forall v, mean k h r = Ok v -> mean k h' a = Ok v) /\
    (forall v, variance k h r = Ok v -> variance k h' a = Ok v) /\
    (forall b, beta_count k h r = Ok b -> beta_count k h' a = Ok b) /\
    (forall s, sigma_variance_for_std_dev k h r = Ok s ->
               sigma_variance_for_std_dev k h' a = Ok s).
Proof.
  intros H k. repeat split; intros v.
  - rewrite !mean_read. apply (copy_reads leaf_mean sum n r h a h' H).
  - rewrite !variance_read. apply (copy_reads leaf_variance sum n r h a h' H).
  - rewrite !beta_count_read. apply (copy_reads leaf_beta_count sumZ n r h a h' H).
  - rewrite !sigma_read. apply (copy_reads leaf_sigma sum n r h a h' H).
Qed.

Lemma copy_team_returns :
  exists a h', copy 2 team0 heap_team = (Ok a, h').
Proof. eexists _, _. vm_compute. reflexivity. Qed.

Lemma copy_reads_agree_witness :
  exists a h',
    copy 2 team0 heap_team = (Ok a, h') /\
    mean 2 h' a = Ok (sum [25; 25]) /\ beta_count 2 h' a = Ok (sumZ [1; 1]%Z).
Proof.
  destruct copy_team_returns as (a & h' & H). exists a, h'.
  split; [exact H|].
  destruct (copy_reads_agree 2 team0 heap_team a h' H 2) as (Hm & _ & Hb & _).
  split; [apply Hm | apply Hb]; reflexivity.
Defined.

(** *** A copy compares equal to its original *)

Lemma list_eq_mono (f g : ref -> ref -> result bool) (l l' : list ref) (v : bool) :
  (forall x y b, f x y = Ok b -> g x y = Ok b) ->
  list_eq f l l' = Ok v -> list_eq g l l' = Ok v.
Proof.
  intros Hfg. revert l'. induction l as [|x l IH]; intros [|y l']; simpl; try (intros H; exact H).
  destruct (f x y) as [b|] eqn:Hxy; simpl; [|discriminate].
  rewrite (Hfg x y b Hxy). simpl. destruct b; [apply IH | intros H; exact H].
Qed.

Lemma rating_eq_weaken h h' :
  h ⊆ h' ->
  forall k a b v, rating_eq k h a b = Ok v -> rating_eq k h' a b = Ok v.
Proof.
  intros Hsub. induction k as [|k IH]; intros a b v; simpl; [discriminate|].
  destruct (Pos.eqb a b); [intros H; exact H|].
  destruct (h !! a) as [oa|] eqn:Ha.
  - destruct (h !! b) as [ob|] eqn:Hb.
    + rewrite (lookup_weaken h h' a oa Ha Hsub), (lookup_weaken h h' b ob Hb Hsub).
      destruct oa as [m s|c s m|nm rs], ob as [m' s'|c' s' m'|nm' rs'];
        try (intros H; exact H).
      destruct (String.eqb nm nm'); [|intros H; exact H].
      destruct (Nat.eqb (length rs) (length rs')); [|intros H; exact H].
      apply list_eq_mono. exact IH.
    + destruct oa; discriminate.
  - discriminate.
Qed.

Lemma copy_all_eq (cp : ref -> heap -> result ref * heap) (k : nat) :
  (forall c h res h', cp c h = (res, h') -> h ⊆ h') ->
  (forall c h a h', cp c h = (Ok a, h') -> rating_eq k h' a c = Ok true) ->
  forall rs h rs' h',
    copy_all cp rs h = (Ok rs', h') ->
    length rs' = length rs /\ list_eq (rating_eq k h') rs' rs = Ok true.
Proof.
  intros Hext Hcp. induction rs as [|c rs IH]; intros h rs' h' H; simpl in H.
  - injection H as <- <-. split; reflexivity.
  - destruct (cp c h) as [[a|x] h1] eqn:Hc; [|discriminate].
    destruct (copy_all cp rs h1) as [[rest|x] h2] eqn:Hrs; [|discriminate].
    injection H as <- <-.
    destruct (IH h1 rest h2 Hrs) as [Hlen Heq].
    assert (H12 : h1 ⊆ h2) by (eapply copy_all_extends; [exact Hext | exact Hrs]).
    split; [simpl; rewrite Hlen; reflexivity|].
    simpl. rewrite (rating_eq_weaken h1 h2 H12 k a c true (Hcp c h a h1 Hc)). simpl.
    exact Heq.
Qed.

Lemma copy_fresh_ne n r h a h' :
  copy n r h = (Ok a, h') -> a <> r /\ exists o, h !! r = Some o.
Proof.
  intros H. destruct (copy_fresh n r h a h' H) as [Hf _].
  destruct n as [|n]; simpl in H; [discriminate|].
  destruct (h !! r) as [o|] eqn:Hr; [|discriminate].
  split; [|exists o; reflexivity]. intros ->. congruence.
Qed.

Lemma copy_eq n :
  forall r h a h', copy n r h = (Ok a, h') -> rating_eq n h' a r = Ok true.
Proof.
  induction n as [|n IH]; intros r h a h' H; [discriminate|].
  pose proof H as Hcopy. simpl in H.
  destruct (copy_fresh_ne (S n) r h a h' Hcopy) as [Hne Hr'].
  destruct (h !! r) as [[m v|s v m|nm rs]|] eqn:Hr; [| | |discriminate].
  - apply allocate_spec in H as (a' & [= <-] & _ & -> & _).
    simpl. rewrite (proj2 (Pos.eqb_neq a r) Hne).
    rewrite lookup_insert_eq, lookup_insert_ne, Hr by exact Hne.
    rewrite !float_eq_refl. reflexivity.
  - apply allocate_spec in H as (a' & [= <-] & _ & -> & _).
    simpl. rewrite (proj2 (Pos.eqb_neq a r) Hne).
    rewrite lookup_insert_eq, lookup_insert_ne, Hr by exact Hne.
    rewrite !float_eq_refl, Bool.eqb_reflx. reflexivity.
  - destruct (copy_all (copy n) rs h) as [[rs'|e] h1] eqn:Hrs; [|discriminate].
    apply allocate_spec in H as (a' & [= <-] & _ & -> & Hsub).
    destruct (copy_all_eq (copy n) n (copy_extends n) IH rs h rs' h1 Hrs) as [Hlen Heq].
    simpl. rewrite (proj2 (Pos.eqb_neq a r) Hne).
    rewrite lookup_insert_eq, lookup_insert_ne by exact Hne.
    rewrite (lookup_weaken h h1 r _ Hr
               (copy_all_extends (copy n) rs (copy_extends n) h _ h1 Hrs)).
    rewrite String.eqb_refl, Hlen, Nat.eqb_refl.
    exact (list_eq_mono _ _ rs' rs true (rating_eq_weaken h1 _ Hsub n) Heq).
Qed.

(** The copy of a rating compares equal ([==]) to the original, so an event
    whose stored winner is the original gives the copy the direction
    [+1]. *)
Theorem copy_equals_original n r h a h' :
  copy n r h = (Ok a, h') ->
  a <> r /\
  rating_eq n h' a r = Ok true /\
  (forall e, winner e = r -> direction_of_weight n h' e a = Ok 1%Z).
Proof.
  intros H. split; [exact (proj1 (copy_fresh_ne n r h a h' H))|].
  pose proof (copy_eq n r h a h' H) as Heq. split; [exact Heq|].
  intros e <-. unfold direction_of_weight. rewrite Heq. reflexivity.
Qed.

Lemma copy_equals_original_witness :
  exists a h',
    copy 2 team0 heap_team = (Ok a, h') /\ a <> team0 /\
    rating_eq 2 h' a team0 = Ok true.
Proof.
  destruct copy_team_returns as (a & h' & H). exists a, h'.
  split; [exact H|].
  destruct (copy_equals_original 2 team0 heap_team a h' H) as (Hne & Heq & _).
  exact (conj Hne Heq).
Defined.

(** *** A copy shares nothing with its original *)

Lemma outside_weaken_store n h0 h h' :
  h ⊆ h' -> forall a, outside n h0 h a -> outside n h0 h' a.
Proof.
  intros Hsub. induction n as [|n IH]; intros a [H0 H]; simpl;
    (split; [exact H0|]); [exact I|].
  destruct (h !! a) as [o|] eqn:Ha; [|destruct H].
  rewrite (lookup_weaken h h' a o Ha Hsub).
  destruct o as [| |nm rs]; try exact I.
  eapply Forall_impl; [exact H | exact IH].
Qed.

Lemma outside_weaken_base n h0 h0' h :
  h0 ⊆ h0' -> forall a, outside n h0' h a -> outside n h0 h a.
Proof.
  intros Hsub. induction n as [|n IH]; intros a [H0 H].
  - simpl. split; [|exact I]. eapply lookup_weaken_None; eassumption.
  - simpl. split; [eapply lookup_weaken_None; eassumption|].
    destruct (h !! a) as [[| |nm rs]|]; try exact H.
    eapply Forall_impl; [exact H | exact IH].
Qed.

Lemma outside_changed n h0 h h1 :
  pointwise rating_changed h h1 -> forall a, outside n h0 h a -> outside n h0 h1 a.
Proof.
  intros Hp. induction n as [|n IH]; intros a [H0 H]; simpl;
    (split; [exact H0|]); [exact I|].
  destruct (Hp a) as [o o' Ho|]; [|exact H].
  destruct o as [| |nm rs], o' as [| |nm' rs']; simpl in Ho; try contradiction;
    try exact I.
  destruct Ho as [_ <-]. eapply Forall_impl; [exact H | exact IH].
Qed.

Lemma copy_all_outside (cp : ref -> heap -> result ref * heap) (k : nat) :
  (forall c h res h', cp c h = (res, h') -> h ⊆ h') ->
  (forall c h a h', cp c h = (Ok a, h') -> outside k h h' a) ->
  forall rs h rs' h',
    copy_all cp rs h = (Ok rs', h') -> Forall (outside k h h') rs'.
Proof.
  intros Hext Hcp. induction rs as [|c rs IH]; intros h rs' h' H; simpl in H.
  - injection H as <- <-. constructor.
  - destruct (cp c h) as [[a|x] h1] eqn:Hc; [|discriminate].
    destruct (copy_all cp rs h1) as [[rest|x] h2] eqn:Hrs; [|discriminate].
    injection H as <- <-.
    assert (H01 : h ⊆ h1) by (eapply Hext, Hc).
    assert (H12 : h1 ⊆ h2) by (eapply copy_all_extends; [exact Hext | exact Hrs]).
    constructor.
    + apply (outside_weaken_store k h h1 h2 H12), (Hcp c h a h1 Hc).
    + eapply Forall_impl; [exact (IH h1 rest h2 Hrs)|].
      intros x. apply (outside_weaken_base k h h1 h2 H01).
Qed.

Lemma copy_outside n :
  forall r h a h', copy n r h = (Ok a, h') -> forall k, outside k h h' a.
Proof.
  induction n as [|n IH]; intros r h a h' H k; [discriminate|].
  destruct (copy_fresh (S n) r h a h' H) as [Hf _]. simpl in H.
  destruct k as [|k]; simpl; (split; [exact Hf|]); [exact I|].
  destruct (h !! r) as [[m v|s v m|nm rs]|] eqn:Hr; [| | |discriminate].
  - apply allocate_spec in H as (a' & [= <-] & _ & -> & _).
    rewrite lookup_insert_eq. exact I.
  - apply allocate_spec in H as (a' & [= <-] & _ & -> & _).
    rewrite lookup_insert_eq. exact I.
  - destruct (copy_all (copy n) rs h) as [[rs'|e] h1] eqn:Hrs; [|discriminate].
    apply allocate_spec in H as (a' & [= <-] & _ & -> & Hsub).
    rewrite lookup_insert_eq.
    eapply Forall_impl;
      [exact (copy_all_outside (copy n) k (copy_extends n)
                (fun c h2 a2 h2' Hc => IH c h2 a2 h2' Hc k) rs h rs' h1 Hrs)|].
    intros x. apply (outside_weaken_store k h h1 _ Hsub).
Qed.

Lemma for_each_outside (body : ref -> update) (n : nat) (h0 : heap) (rs : list ref) :
  (forall c h res h',
     outside n h0 h c -> body c h = (res, h') ->
     (forall x o, h0 !! x = Some o -> h' !! x = h !! x) /\
     pointwise rating_changed h h') ->
  forall h res h',
    Forall (outside n h0 h) rs -> for_each body rs h = (res, h') ->
    forall x o, h0 !! x = Some o -> h' !! x = h !! x.
Proof.
  intros Hbody. induction rs as [|c rs IH]; intros h res h' Hall H x o Hx; simpl in H.
  - injection H as _ <-. reflexivity.
  - apply Forall_cons in Hall as [Hc Hall].
    destruct (body c h) as [[[]|e] h1] eqn:Hb.
    + destruct (Hbody c h _ h1 Hc Hb) as [Hsame Hp].
      rewrite <- (Hsame x o Hx).
      refine (IH h1 res h' _ H x o Hx).
      eapply Forall_impl; [exact Hall|]. intros y. apply (outside_changed n h0 h h1 Hp).
    + injection H as _ <-. exact (proj1 (Hbody c h _ h1 Hc Hb) x o Hx).
Qed.

Lemma insert_outside (h0 h : heap) (a : ref) (o' : Rating) (x : ref) (o : Rating) :
  h0 !! a = None -> h0 !! x = Some o -> <[a := o']> h !! x = h !! x.
Proof. intros Ha Hx. apply lookup_insert_ne. intros ->. congruence. Qed.

Lemma update_mean_outside n :
  forall a e wl h0 h res h',
    outside n h0 h a -> update_mean n a e wl h = (res, h') ->
    forall x o, h0 !! x = Some o -> h' !! x = h !! x.
Proof.
  induction n as [|n IH]; intros a e wl h0 h res h' [H0 Hout] H x o Hx; simpl in H.
  - injection H as _ <-. reflexivity.
  - destruct (h !! a) as [[m v|s v m|nm rs]|] eqn:Ha.
    + destruct (standard_mean_update n h a e wl); injection H as _ <-; [|reflexivity].
      eapply insert_outside; eassumption.
    + destruct s; [injection H as _ <-; reflexivity|].
      destruct (standard_mean_update n h a e wl); injection H as _ <-; [|reflexivity].
      eapply insert_outside; eassumption.
    + destruct (direction_of_weight n h e a) as [d|]; [|injection H as _ <-; reflexivity].
      refine (for_each_outside (fun c => update_mean n c e (Some d)) n h0 rs _
                h res h' Hout H x o Hx).
      intros c h1 res1 h1' Hc Hb. split.
      * exact (IH c e (Some d) h0 h1 res1 h1' Hc Hb).
      * eapply pointwise_impl; [exact mean_changed_rating_changed|].
        eapply update_mean_pointwise, Hb.
    + injection H as _ <-. reflexivity.
Qed.

Lemma update_variance_outside n :
  forall a e h0 h res h',
    outside n h0 h a -> update_variance n a e h = (res, h') ->
    forall x o, h0 !! x = Some o -> h' !! x = h !! x.
Proof.
  induction n as [|n IH]; intros a e h0 h res h' [H0 Hout] H x o Hx; simpl in H.
  - injection H as _ <-. reflexivity.
  - destruct (h !! a) as [[m v|s v m|nm rs]|] eqn:Ha.
    + destruct (standard_variance_update n h a e); injection H as _ <-; [|reflexivity].
      eapply insert_outside; eassumption.
    + destruct s; [injection H as _ <-; reflexivity|].
      destruct (standard_variance_update n h a e); injection H as _ <-; [|reflexivity].
      eapply insert_outside; eassumption.
    + refine (for_each_outside (fun c => update_variance n c e) n h0 rs _
                h res h' Hout H x o Hx).
      intros c h1 res1 h1' Hc Hb. split.
      * exact (IH c e h0 h1 res1 h1' Hc Hb).
      * eapply pointwise_impl; [exact variance_changed_rating_changed|].
        eapply update_variance_pointwise, Hb.
    + injection H as _ <-. reflexivity.
Qed.

(** Updating the copy of a rating changes no object of the store the copy
    was taken in: a copied [RateableTotality] has copies of its ratings, at
    every depth, so the original and all the ratings below it keep their
    means and variances. *)
Theorem copy_is_independent n r h a h' :
  copy n r h = (Ok a, h') ->
  forall k e res h'',
    update_mean_and_variance k a e h' = (res, h'') ->
    forall x o, h !! x = Some o -> h'' !! x = Some o.
Proof.
  intros H k e res h'' Hu x o Hx.
  assert (Hx' : h' !! x = Some o)
    by (eapply lookup_weaken; [exact Hx | eapply copy_extends, H]).
  rewrite <- Hx'. destruct k as [|k]; simpl in Hu.
  - injection Hu as _ <-. reflexivity.
  - pose proof (copy_outside n r h a h' H k) as Hout.
    destruct (update_mean k a e None h') as [[[]|y] h1] eqn:Hm.
    + rewrite <- (update_mean_outside k a e None h h' _ h1 Hout Hm x o Hx).
      refine (update_variance_outside k a e h h1 res h'' _ Hu x o Hx).
      apply (outside_changed k h h' h1); [|exact Hout].
      eapply pointwise_impl; [exact mean_changed_rating_changed|].
      eapply update_mean_pointwise, Hm.
    + injection Hu as _ <-.
      exact (update_mean_outside k a e None h h' _ h1 Hout Hm x o Hx).
Qed.

Lemma copy_is_independent_witness :
  exists a h',
    copy 2 team0 heap_team = (Ok a, h') /\
    snd (update_mean_and_variance 4 a event0 h') !! winner0
      = Some (SkillBasedRating 25 (25 / 3)).
Proof.
  destruct copy_team_returns as (a & h' & H). exists a, h'.
  split; [exact H|].
  exact (copy_is_independent 2 team0 heap_team a h' H 4 event0 _ _
           (surjective_pairing _) winner0 (SkillBasedRating 25 (25 / 3)) eq_refl).
Defined.

Lemma copy_all_ok_inv (cp : ref -> heap -> result ref * heap) (rs : list ref) :
  (forall c h res h', cp c h = (res, h') -> h ⊆ h') ->
  forall h rs' h' c,
    copy_all cp rs h = (Ok rs', h') -> c ∈ rs ->
    exists h0 a h1, h ⊆ h0 /\ cp c h0 = (Ok a, h1).
Proof.
  intros Hext. induction rs as [|c0 rs IH]; intros h rs' h' c H Hc.
  - apply elem_of_nil in Hc. destruct Hc.
  - simpl in H. destruct (cp c0 h) as [[a|x] h1] eqn:Hc0; [|discriminate].
    destruct (copy_all cp rs h1) as [[rest|x] h2] eqn:Hrs; [|discriminate].
    apply elem_of_cons in Hc as [->|Hc].
    + exists h, a, h1. split; [reflexivity | exact Hc0].
    + destruct (IH h1 rest h2 c Hrs Hc) as (h0 & a0 & h3 & Hsub & Hrun).
      exists h0, a0, h3. split; [|exact Hrun].
      transitivity h1; [eapply Hext, Hc0 | exact Hsub].
Qed.

(** [RateableTotality.__copy__] warns that ratings cannot contain
    themselves: the copy of a composite that lists itself among its ratings
    never returns, whatever the recursion depth. *)
Theorem copy_self_containing h t nm rs :
  h !! t = Some (RateableTotality nm rs) -> t ∈ rs ->
  forall n a h', copy n t h <> (Ok a, h').
Proof.
  intros Ht Hin n. revert h Ht.
  induction n as [|n IH]; intros h Ht a h'; simpl; [discriminate|].
  rewrite Ht.
  destruct (copy_all (copy n) rs h) as [[rs'|x] h1] eqn:Hrs; [|discriminate].
  intros _.
  destruct (copy_all_ok_inv (copy n) rs (copy_extends n) h rs' h1 t Hrs Hin)
    as (h0 & a0 & h2 & Hsub & Hrun).
  exact (IH h0 (lookup_weaken h h0 t _ Ht Hsub) a0 h2 Hrun).
Qed.

Lemma copy_self_containing_witness :
  copy 1000 team0 heap_cyclic <> (Ok frozen0, heap_cyclic).
Proof.
  refine (copy_self_containing heap_cyclic team0 "loop" [winner0; team0] eq_refl _
            1000%nat frozen0 heap_cyclic).
  apply elem_of_cons. right. apply list_elem_of_singleton. reflexivity.
Defined.

(** ** The direction, by value *)

(** [direction_of_weight] compares by value: for a [SkillBasedRating] that
    is not the stored winner object, the direction is [+1] exactly when the
    winner is a [SkillBasedRating] with the same mean and the same variance,
    and [-1] otherwise. *)
Theorem direction_of_weight_by_value n h e r m v :
  r <> winner e ->
  h !! r = Some (SkillBasedRating m v) ->
  (forall m' v',
     h !! winner e = Some (SkillBasedRating m' v') ->
     (m = m' /\ v = v' -> direction_of_weight (S n) h e r = Ok 1%Z) /\
     (~ (m = m' /\ v = v') -> direction_of_weight (S n) h e r = Ok (-1)%Z)) /\
  (forall o,
     h !! winner e = Some o -> ~ is_skill o ->
     direction_of_weight (S n) h e r = Ok (-1)%Z).
Proof.
  intros Hne Hr. split.
  - intros m' v' Hw. unfold direction_of_weight.
    rewrite (rating_eq_skill n h r (winner e) m v m' v' Hne Hr Hw).
    split.
    + intros [-> ->]. rewrite !float_eq_refl. reflexivity.
    + intros Hn. simpl.
      destruct (float_eq m m') eqn:Em; [|reflexivity].
      destruct (float_eq v v') eqn:Ev; [|reflexivity].
      exfalso. apply Hn. split; apply float_eq_true; assumption.
  - intros o Hw Ho. unfold direction_of_weight. simpl.
    rewrite (proj2 (Pos.eqb_neq r (winner e)) Hne), Hr, Hw.
    destruct o as [| |]; [exfalso; apply Ho; exact I | reflexivity | reflexivity].
Qed.

Lemma direction_of_weight_by_value_witness :
  direction_of_weight 1 heap0 event0 loser0 = Ok 1%Z.
Proof.
  refine (proj1 (proj1 (direction_of_weight_by_value 0 heap0 event0 loser0 25 (25 / 3)
                          _ eq_refl) 25 (25 / 3) eq_refl) (conj eq_refl eq_refl)).
  discriminate.
Defined.

(** ** Updating a team, mean and variance *)

Lemma update_mean_skill_moved n e d :
  std_dev_of_performances e <> 0 ->
  forall c h o,
    h !! c = Some o -> is_skill o ->
    update_mean (S (S n)) c e (Some d) h = (Ok tt, <[c := moved_mean e d o]> h).
Proof.
  intros Hc c h o Ho HP. destruct o as [m v| |]; [|destruct HP|destruct HP].
  apply (update_mean_skill (S n) h c e (Some d) m v); [exact Ho|].
  apply standard_mean_update_some;
    [eapply mean_skill, Ho | eapply variance_skill, Ho | exact Hc].
Qed.

Lemma update_variance_skill_moved n e :
  std_dev_of_performances e <> 0 ->
  forall c h o,
    h !! c = Some o -> radicand_nonneg e o ->
    update_variance (S (S n)) c e h = (Ok tt, <[c := moved_variance e o]> h).
Proof.
  intros Hc c h o Ho HP. destruct o as [m v| |]; [|destruct HP|destruct HP].
  apply (update_variance_skill (S n) h c e m v); [exact Ho|].
  rewrite (standard_variance_update_unfold (S n) h c e v
             (variance_skill h c n m v Ho) Hc).
  apply math_sqrt_ok. exact HP.
Qed.

Lemma update_mean_totality_unfold n h t nm rs e wl d :
  h !! t = Some (RateableTotality nm rs) ->
  direction_of_weight n h e t = Ok d ->
  update_mean (S n) t e wl h = for_each (fun c => update_mean n c e (Some d)) rs h.
Proof.
  intros Ht Hd.
  change (update_mean (S n) t e wl h)
    with (match h !! t with
          | None => (Raise DanglingReference, h)
          | Some (SkillBasedRating m v) =>
              match standard_mean_update n h t e wl with
              | Ok m' => (Ok tt, <[t := SkillBasedRating m' v]> h)
              | Raise x => (Raise x, h)
              end
          | Some (ConstantRating is_set v m) =>
              if is_set then (Ok tt, h) else
              match standard_mean_update n h t e wl with
              | Ok m' => (Ok tt, <[t := ConstantRating is_set v m']> h)
              | Raise x => (Raise x, h)
              end
          | Some (RateableTotality _ rs0) =>
              match direction_of_weight n h e t with
              | Ok d0 => for_each (fun c => update_mean n c e (Some d0)) rs0 h
              | Raise x => (Raise x, h)
              end
          end).
  rewrite Ht, Hd. reflexivity.
Qed.

Lemma update_variance_totality_unfold n h t nm rs e :
  h !! t = Some (RateableTotality nm rs) ->
  update_variance (S n) t e h = for_each (fun c => update_variance n c e) rs h.
Proof.
  intros Ht.
  change (update_variance (S n) t e h)
    with (match h !! t with
          | None => (Raise DanglingReference, h)
          | Some (SkillBasedRating m v) =>
              match standard_variance_update n h t e with
              | Ok v' => (Ok tt, <[t := SkillBasedRating m v']> h)
              | Raise x => (Raise x, h)
              end
          | Some (ConstantRating is_set v m) =>
              if is_set then (Ok tt, h) else
              match standard_variance_update n h t e with
              | Ok v' => (Ok tt, <[t := ConstantRating is_set v' m]> h)
              | Raise x => (Raise x, h)
              end
          | Some (RateableTotality _ rs0) =>
              for_each (fun c => update_variance n c e) rs0 h
          end).
  rewrite Ht. reflexivity.
Qed.

(** [update_mean_and_variance] on a team of distinct [SkillBasedRating]
    members updates every member as the two formulas say, with the team's
    direction for the mean and the member's own variance before the call for
    both, and changes nothing else. *)
Theorem update_mean_and_variance_team n h t nm rs e d :
  h !! t = Some (RateableTotality nm rs) ->
  NoDup rs ->
  (forall c, c ∈ rs ->
     exists m v, h !! c = Some (SkillBasedRating m v) /\ 0 <= variance_radicand e v) ->
  direction_of_weight (S (S n)) h e t = Ok d ->
  std_dev_of_performances e <> 0 ->
  exists h' : heap,
    update_mean_and_variance (S (S (S (S n)))) t e h = (Ok tt, h') /\
    (forall c o, c ∈ rs -> h !! c = Some o ->
       h' !! c = Some (moved_variance e (moved_mean e d o))) /\
    (forall x, x ∉ rs -> h' !! x = h !! x).
Proof.
  intros Ht Hnd Hall Hd Hc.
  assert (Htn : t ∉ rs).
  { intros Hin. destruct (Hall t Hin) as (m & v & Hs & _). congruence. }
  destruct (for_each_leaves
              (fun c => update_mean (S (S n)) c e (Some d)) (moved_mean e d) is_skill rs
              (update_mean_skill_moved n e d Hc) Hnd h)
    as (h1 & Hrun1 & Hin1 & Hout1).
  { intros c Hcin. destruct (Hall c Hcin) as (m & v & Hs & _).
    exists (SkillBasedRating m v). split; [exact Hs | exact I]. }
  destruct (for_each_leaves
              (fun c => update_variance (S (S n)) c e) (moved_variance e)
              (radicand_nonneg e) rs
              (update_variance_skill_moved n e Hc) Hnd h1)
    as (h2 & Hrun2 & Hin2 & Hout2).
  { intros c Hcin. destruct (Hall c Hcin) as (m & v & Hs & Hr).
    eexists. split; [apply (Hin1 c _ Hcin Hs) | exact Hr]. }
  exists h2. split; [|split].
  - unfold update_mean_and_variance.
    rewrite (update_mean_totality_unfold (S (S n)) h t nm rs e None d Ht Hd), Hrun1.
    rewrite (update_variance_totality_unfold (S (S n)) h1 t nm rs e);
      [exact Hrun2 | rewrite (Hout1 t Htn); exact Ht].
  - intros c o Hcin Ho. apply Hin2; [exact Hcin|]. apply Hin1; assumption.
  - intros x Hx. rewrite (Hout2 x Hx). apply Hout1, Hx.
Qed.

Lemma update_mean_and_variance_team_witness :
  exists h' : heap,
    update_mean_and_variance 4 team0 event0 heap_team = (Ok tt, h') /\
    h' !! winner0
      = Some (moved_variance event0 (moved_mean event0 (-1) (SkillBasedRating 25 (25 / 3)))).
Proof.
  destruct (update_mean_and_variance_team 0 heap_team team0 "team" [winner0; loser0]
              event0 (-1) eq_refl team_members_distinct team_members_radicand eq_refl
              (Rgt_not_eq _ _ event0_c_pos)) as (h' & Hrun & Hin & _).
  exists h'. split; [exact Hrun|].
  apply Hin; [|reflexivity]. apply elem_of_cons. left. reflexivity.
Defined.
